(** * libsetting: a shallow embedding of [dutil::setting] (src/include/setting.h)

    The class is a flat key/value configuration store with shell-like
    [$name] / [${name}] interpolation.  Every member function that the
    properties below talk about is transcribed here: [trim], [insert],
    [parse_once], [parse_recursive], [get_value], the typed getters,
    [get_vector], [dump] and [read_from_file].

    Conventions of the embedding
    - a [std::string] is a [list ascii] (bytes, embedded NUL allowed);
    - [std::string::size_type] is a [Z] in [0, 2^64), [npos] is [2^64 - 1];
      [int] is a [Z] in [-2^31, 2^31); the conversions between the two are
      written out ([to_int], [to_size_t]);
    - a member function that can throw ([std::out_of_range] from [substr],
      [std::runtime_error] from [read_from_file]) returns an [option],
      [None] being the exception;
    - the two loops that are not structurally recursive ([parse_once],
      [get_vector]) are run with fuel; [None] is then also "fuel exhausted",
      and the theorems show that the fuel handed out is always enough;
    - [std::map<std::string, std::string>] is an association list kept
      strictly sorted by key (the order [dump] iterates in). *)

From Stdlib Require Import List Ascii String ZArith QArith Lia Bool Sorted.
Import ListNotations.

Local Open Scope Z_scope.

(** ** Strings *)

Definition cstring := list ascii.

(** String literals of the development. *)
Definition str (s : string) : cstring := list_ascii_of_string s.

Definition NUL : ascii := Ascii.zero.
Definition BACKSLASH : ascii := "\"%char.
Definition DOLLAR : ascii := "$"%char.
Definition LBRACE : ascii := "{"%char.
Definition RBRACE : ascii := "}"%char.
Definition COMMA : ascii := ","%char.
Definition EQUALS : ascii := "="%char.
Definition HASH : ascii := "#"%char.
Definition SPACE : ascii := " "%char.
Definition TAB : ascii := ascii_of_nat 9.
Definition CR : ascii := ascii_of_nat 13.
Definition LF : ascii := ascii_of_nat 10.

Definition size (s : cstring) : Z := Z.of_nat (List.length s).

Definition npos : Z := Eval cbv in (2 ^ 64 - 1).
Definition two64 : Z := Eval cbv in (2 ^ 64).
Definition two32 : Z := Eval cbv in (2 ^ 32).
Definition two31 : Z := Eval cbv in (2 ^ 31).

(** Conversion of a [size_type] (or of an [int] result) to [int]:
    reduction modulo 2^32 into the signed range. *)
Definition to_int (z : Z) : Z := (z + two31) mod two32 - two31.

(** Conversion of an [int] to [size_type]: reduction modulo 2^64. *)
Definition to_size_t (z : Z) : Z := z mod two64.

(** [s.find(ch, pos)] : index of the first [ch] at or after [pos], else
    [npos]. *)
Fixpoint find_from (ch : ascii) (s : cstring) (i : Z) : Z :=
  match s with
  | [] => npos
  | c :: r => if Ascii.eqb c ch then i else find_from ch r (i + 1)
  end.

Definition find (ch : ascii) (s : cstring) (pos : Z) : Z :=
  if size s <? pos then npos
  else find_from ch (skipn (Z.to_nat pos) s) pos.

(** [s.substr(pos, count)] : throws [std::out_of_range] when [pos > size()],
    otherwise the characters [pos, min (pos + count) size). *)
Definition substr (s : cstring) (pos count : Z) : option cstring :=
  if size s <? pos then None
  else Some (firstn (Z.to_nat (Z.min count (size s - pos)))
                    (skipn (Z.to_nat pos) s)).

Definition mem (c : ascii) (set : cstring) : bool :=
  existsb (Ascii.eqb c) set.

(** [s.find_first_not_of(set)] *)
Fixpoint find_first_not_of_from (set s : cstring) (i : Z) : Z :=
  match s with
  | [] => npos
  | c :: r => if mem c set then find_first_not_of_from set r (i + 1) else i
  end.

Definition find_first_not_of (set s : cstring) : Z :=
  find_first_not_of_from set s 0.

(** [s.find_last_not_of(set)] : [last] is the best index seen so far. *)
Fixpoint find_last_not_of_from (set s : cstring) (i last : Z) : Z :=
  match s with
  | [] => last
  | c :: r =>
      find_last_not_of_from set r (i + 1) (if mem c set then last else i)
  end.

Definition find_last_not_of (set s : cstring) : Z :=
  find_last_not_of_from set s 0 npos.

(** [s.c_str()] read as a C string: the characters before the first NUL. *)
Fixpoint c_str (s : cstring) : cstring :=
  match s with
  | [] => []
  | c :: r => if Ascii.eqb c NUL then [] else c :: c_str r
  end.

(** ** [setting::trim] (setting.h 277-289) *)

Definition whitespace : cstring := [SPACE; TAB; CR; LF].

Definition trim (s : cstring) : option cstring :=
  let begin_ := find_first_not_of whitespace s in
  if begin_ =? npos then Some []
  else
    let end_ := find_last_not_of whitespace s in
    substr s begin_ (to_size_t (end_ + 1)).

(** ** [setting::check_identifier] (setting.h 297-300), C locale [isalnum] *)

Definition isalnum (ch : ascii) : bool :=
  let n := N_of_ascii ch in
  ((48 <=? n) && (n <=? 57) || (65 <=? n) && (n <=? 90)
   || (97 <=? n) && (n <=? 122))%N.

Definition check_identifier (ch : ascii) : bool :=
  isalnum ch || Ascii.eqb ch "_"%char.

(** ** The store: [std::map<std::string, std::string>]

    Keys are ordered by [std::string::operator<], the lexicographic order
    on the characters read as unsigned bytes. *)

Fixpoint str_compare (a b : cstring) : comparison :=
  match a, b with
  | [], [] => Eq
  | [], _ :: _ => Lt
  | _ :: _, [] => Gt
  | x :: a', y :: b' =>
      match N.compare (N_of_ascii x) (N_of_ascii y) with
      | Eq => str_compare a' b'
      | c => c
      end
  end.

Definition str_lt (a b : cstring) : Prop := str_compare a b = Lt.

Definition item_type := list (cstring * cstring).

(** [map_.find(key)] : [None] is [map_.end()].  The search stops at the
    first key above [key], as the keys are increasing. *)
Fixpoint map_find (key : cstring) (m : item_type) : option cstring :=
  match m with
  | [] => None
  | (k, v) :: r =>
      match str_compare key k with
      | Eq => Some v
      | Lt => None
      | Gt => map_find key r
      end
  end.

(** [map_[key] = value] *)
Fixpoint map_set (key value : cstring) (m : item_type) : item_type :=
  match m with
  | [] => [(key, value)]
  | (k, v) :: r =>
      match str_compare key k with
      | Eq => (k, value) :: r
      | Lt => (key, value) :: (k, v) :: r
      | Gt => (k, v) :: map_set key value r
      end
  end.

(** The representation invariant of the map: keys strictly increasing. *)
Definition map_ok (m : item_type) : Prop :=
  StronglySorted (fun e1 e2 => str_lt (fst e1) (fst e2)) m.

(** ** The object *)

Record setting := mk_setting {
  recursion_level_ : nat;      (* size_t, only ever counted up to *)
  map_ : item_type;
  reserve_ : cstring           (* mutable scratch string *)
}.

(** [setting(size_t level = 3)] *)
Definition new_setting (level : nat) : setting :=
  {| recursion_level_ := level; map_ := []; reserve_ := [] |}.

Definition with_map (st : setting) (m : item_type) : setting :=
  {| recursion_level_ := recursion_level_ st; map_ := m;
     reserve_ := reserve_ st |}.

Definition with_reserve (st : setting) (r : cstring) : setting :=
  {| recursion_level_ := recursion_level_ st; map_ := map_ st;
     reserve_ := r |}.

Notation "x <- e ;; k" :=
  (match e with Some x => k | None => None end)
  (at level 61, e at next level, right associativity).

Definition is_empty (s : cstring) : bool :=
  match s with [] => true | _ => false end.

(** ** [setting::insert] (setting.h 324-335)

    [break_pos] is an [int]: the [size_type] returned by [find] is narrowed
    on assignment and widened again in the two [substr] calls. *)
Definition insert (s : cstring) (st : setting) : option setting :=
  let break_pos := to_int (find EQUALS s 0) in
  key_part <- substr s 0 (to_size_t break_pos) ;;
  key <- trim key_part ;;
  value_part <- substr s (to_size_t (to_int (break_pos + 1))) npos ;;
  value <- trim value_part ;;
  if negb (is_empty key)
  then Some (with_map st (map_set key value (map_ st)))
  else Some st.

(** [operator<<] on a line. *)
Definition append_line (s : cstring) (st : setting) : option setting :=
  insert s st.

(** Successive [operator<<] calls. *)
Fixpoint inserts (lines : list cstring) (st : setting) : option setting :=
  match lines with
  | [] => Some st
  | l :: r => st' <- insert l st ;; inserts r st'
  end.

(** ** [setting::parse_once] (setting.h 344-394) *)

Inductive pstate :=
| PS_UNKNOW | PS_ESCAPE | PS_DOLLAR | PS_FETCHKEY
| PS_REPLACE | PS_FINISH | PS_REPLACE_FINISH.

Definition pstate_eqb (a b : pstate) : bool :=
  match a, b with
  | PS_UNKNOW, PS_UNKNOW | PS_ESCAPE, PS_ESCAPE | PS_DOLLAR, PS_DOLLAR
  | PS_FETCHKEY, PS_FETCHKEY | PS_REPLACE, PS_REPLACE
  | PS_FINISH, PS_FINISH | PS_REPLACE_FINISH, PS_REPLACE_FINISH => true
  | _, _ => false
  end.

(** The [break] test at the end of the loop body. *)
Definition is_final (st : pstate) : bool :=
  pstate_eqb st PS_FINISH || pstate_eqb st PS_REPLACE_FINISH.

(** The local variables of the loop. *)
Record scanner := mk_scanner {
  state : pstate;
  brace_open : bool;
  key : cstring;
  out : cstring
}.

Definition scanner_init : scanner :=
  {| state := PS_UNKNOW; brace_open := false; key := []; out := [] |}.

(** The first [if ... else if] chain of the loop body (lines 361-373). *)
Definition next_state (st : pstate) (ch : ascii) : pstate :=
  if Ascii.eqb ch BACKSLASH then PS_ESCAPE
  else if Ascii.eqb ch NUL then
    (if pstate_eqb st PS_FETCHKEY then PS_REPLACE_FINISH else PS_FINISH)
  else if Ascii.eqb ch DOLLAR && negb (pstate_eqb st PS_ESCAPE) then PS_DOLLAR
  else if pstate_eqb st PS_DOLLAR then PS_FETCHKEY
  else if pstate_eqb st PS_FETCHKEY && negb (check_identifier ch)
          && negb (Ascii.eqb ch LBRACE) then PS_REPLACE
  else if negb (pstate_eqb st PS_FETCHKEY) then PS_UNKNOW
  else st.

(** One execution of the loop body on the character [ch = *pch]: the new
    locals and the new value of [pch] (before the [pch++] of the [for]). *)
Definition body (m : item_type) (c : scanner) (ch : ascii) (pch : Z)
  : scanner * Z :=
  let st := next_state (state c) ch in
  match st with
  | PS_UNKNOW =>
      ({| state := st; brace_open := brace_open c; key := key c;
          out := out c ++ [ch] |}, pch)
  | PS_FETCHKEY =>
      ({| state := st;
          brace_open := if Ascii.eqb ch LBRACE then true else brace_open c;
          key := if check_identifier ch then key c ++ [ch] else key c;
          out := out c |}, pch)
  | PS_REPLACE | PS_REPLACE_FINISH =>
      let c' :=
        match map_find (key c) m with
        | Some v => {| state := st; brace_open := brace_open c; key := [];
                       out := out c ++ v |}
        | None => {| state := st; brace_open := brace_open c; key := key c;
                     out := out c |}
        end in
      (c', if negb (brace_open c && Ascii.eqb ch RBRACE) then pch - 1
           else pch)
  | _ =>
      ({| state := st; brace_open := brace_open c; key := key c;
          out := out c |}, pch)
  end.

(** The [for (pch = str.c_str(); ; pch++)] loop.  [*pch] is read from the
    NUL-terminated buffer: past the last character it is NUL. *)
Fixpoint parse_loop (fuel : nat) (m : item_type) (s : cstring)
  (c : scanner) (pch : Z) : option cstring :=
  match fuel with
  | O => None
  | S fuel' =>
      let ch := nth (Z.to_nat pch) s NUL in
      let (c', pch') := body m c ch pch in
      if is_final (state c') then Some (out c')   (* break *)
      else parse_loop fuel' m s c' (pch' + 1)
  end.

Definition parse_once (m : item_type) (s : cstring) : option cstring :=
  parse_loop (2 * List.length s + 1) m s scanner_init 0.

(** ** [setting::parse_recursive] (setting.h 403-414)

    [n] is the number of iterations the counter [i] still allows. *)
Fixpoint parse_recursive_loop (n : nat) (m : item_type) (s lhs : cstring)
  : option cstring :=
  match n with
  | O => Some lhs
  | S n' =>
      if find DOLLAR s 0 <? npos then
        rhs <- parse_once m lhs ;;
        parse_recursive_loop n' m s rhs
      else Some lhs
  end.

Definition parse_recursive (level : nat) (m : item_type) (s : cstring)
  : option cstring :=
  parse_recursive_loop level m s s.

(** ** [setting::get_value] (setting.h 308-316) *)
Definition get_value (k : cstring) (st : setting) : option (bool * setting) :=
  match map_find k (map_ st) with
  | Some raw =>
      r <- parse_recursive (recursion_level_ st) (map_ st) raw ;;
      Some (true, with_reserve st r)
  | None => Some (false, st)
  end.

(** ** The typed getters (setting.h 140-194)

    [atoi], [atol], [atoll] and [strtod] belong to the C library; they are
    parameters of the getters.  A [double] is represented by the rational
    it denotes.  The integer types are those of an LP64 platform, on which
    [long] and [long long] coincide. *)

(** Conversion of a [double] to [long] (the implicit conversion performed
    by a [return] in a function whose return type is [long]): truncation
    toward zero.  The conversion is defined when the truncated value fits a
    64-bit [long]; beyond that range the program has no defined result and
    this function says nothing about it. *)
Definition double_to_long (d : Q) : Z := Z.quot (Qnum d) (Z.pos (Qden d)).

(** Conversion of a [long long] to [long]: the identity on LP64. *)
Definition longlong_to_long (z : Z) : Z := z.

Section Getters.

Variable atoi : cstring -> Z.
Variable atol : cstring -> Z.
Variable atoll : cstring -> Z.
Variable strtod : cstring -> Q.

(** [int get_int(const std::string &key, int defval = 0) const] *)
Definition get_int (k : cstring) (defval : Z) (st : setting)
  : option (Z * setting) :=
  r <- get_value k st ;;
  let (found, st') := r in
  Some (if found then atoi (c_str (reserve_ st')) else defval, st').

(** [long get_long(const std::string &key, long defval = 0) const] *)
Definition get_long (k : cstring) (defval : Z) (st : setting)
  : option (Z * setting) :=
  r <- get_value k st ;;
  let (found, st') := r in
  Some (if found then atol (c_str (reserve_ st')) else defval, st').

(** [long get_longlong(const std::string &key, long long defval = 0) const] *)
Definition get_longlong (k : cstring) (defval : Z) (st : setting)
  : option (Z * setting) :=
  r <- get_value k st ;;
  let (found, st') := r in
  Some (longlong_to_long
          (if found then atoll (c_str (reserve_ st')) else defval), st').

(** [long get_double(const std::string &key, double defval = 0.0) const]:
    the conditional expression has type [double], the function returns
    [long]. *)
Definition get_double (k : cstring) (defval : Q) (st : setting)
  : option (Z * setting) :=
  r <- get_value k st ;;
  let (found, st') := r in
  Some (double_to_long
          (if found then strtod (c_str (reserve_ st')) else defval), st').

End Getters.

(** [const char* get_cstr(const std::string &key, const char *defval = NULL)
    const]: a [const char*] is [None] (the null pointer) or the C string it
    points to. *)
Definition get_cstr (k : cstring) (defval : option cstring) (st : setting)
  : option (option cstring * setting) :=
  r <- get_value k st ;;
  let (found, st') := r in
  Some (if found then Some (c_str (reserve_ st')) else defval, st').

(** ** [setting::get_vector] (setting.h 203-219) *)
Fixpoint get_vector_loop (fuel : nat) (reserve : cstring) (pos : Z)
  (vec : list cstring) : option (list cstring) :=
  match fuel with
  | O => None
  | S fuel' =>
      if pos <? npos then
        let break_pos := find COMMA reserve pos in
        let break_pos := if break_pos =? npos then npos - 1 else break_pos in
        seg <- substr reserve pos (to_size_t (break_pos - pos)) ;;
        s <- trim seg ;;
        let vec := if negb (is_empty s) then vec ++ [s] else vec in
        get_vector_loop fuel' reserve (to_size_t (break_pos + 1)) vec
      else Some vec
  end.

Definition get_vector (k : cstring) (vec : list cstring) (st : setting)
  : option (bool * list cstring * setting) :=
  r <- get_value k st ;;
  let (found, st') := r in
  if found then
    v <- get_vector_loop (List.length (reserve_ st') + 2) (reserve_ st') 0 vec ;;
    Some (true, v, st')
  else Some (false, vec, st').

(** ** [setting::dump] (setting.h 227-236) *)
Definition dump_entry (text : cstring) (e : cstring * cstring) : cstring :=
  ((text ++ fst e) ++ [SPACE; EQUALS; SPACE]) ++ snd e ++ [LF].

Definition dump (st : setting) : cstring :=
  fold_left dump_entry (map_ st) [].

(** ** [setting::read_from_file] (setting.h 243-258)

    The file is given by its contents, [None] when it cannot be opened.
    [getlines] is the sequence of strings for which
    [std::getline(ifs, line).eof()] is false: the lines that end in a
    line feed.  A last line without line feed sets [eofbit] and is not
    processed. *)
Fixpoint getlines (text line : cstring) : list cstring :=
  match text with
  | [] => []
  | c :: r =>
      if Ascii.eqb c LF then line :: getlines r []
      else getlines r (line ++ [c])
  end.

Definition load_line (line : cstring) (st : setting) : option setting :=
  trimmed_line <- trim line ;;
  if negb (is_empty trimmed_line)
     && negb (Ascii.eqb (hd NUL trimmed_line) HASH)
  then insert trimmed_line st
  else Some st.

Fixpoint load_lines (lines : list cstring) (st : setting) : option setting :=
  match lines with
  | [] => Some st
  | l :: r => st' <- load_line l st ;; load_lines r st'
  end.

Definition read_from_file (file : option cstring) (st : setting)
  : option setting :=
  match file with
  | Some text => load_lines (getlines text []) st
  | None => None          (* std::runtime_error *)
  end.

(** [setting(const char *s, size_t level = 3)] *)
Definition new_setting_from_file (file : option cstring) (level : nat)
  : option setting :=
  read_from_file file (new_setting level).

(** ** The scanner of [parse_once], character by character

    [parse_once] re-examines a character by stepping [pch] back.  [feed] is
    everything the loop does with one (non NUL) character, the second look
    included; [finish] is what it does with the terminating NUL. *)

Definition feed (m : item_type) (c : scanner) (ch : ascii) : scanner :=
  let (c1, p) := body m c ch 0 in
  if p <? 0 then fst (body m c1 ch 0) else c1.

Definition finish (m : item_type) (c : scanner) : cstring :=
  out (fst (body m c NUL 0)).

Definition run (m : item_type) (c : scanner) (s : cstring) : scanner :=
  fold_left (feed m) s c.

Fixpoint scan (m : item_type) (c : scanner) (s : cstring) : cstring :=
  match s with
  | [] => finish m c
  | ch :: r =>
      if Ascii.eqb ch NUL then finish m c else scan m (feed m c ch) r
  end.

(** One interpolation pass, as a total function. *)
Definition pass (m : item_type) (s : cstring) : cstring :=
  scan m scanner_init s.

(** What a lookup that ends a reference appends to the output. *)
Definition lookup_text (m : item_type) (k : cstring) : cstring :=
  match map_find k m with Some v => v | None => [] end.

(** The identifier buffer after a lookup: cleared only on success. *)
Definition lookup_key (m : item_type) (k : cstring) : cstring :=
  match map_find k m with Some _ => [] | None => k end.

(** ** Vocabulary of the statements *)

(** A character that the scanner copies when it is in its default state:
    not NUL, not a backslash, not a dollar sign. *)
Definition plain_char (ch : ascii) : bool :=
  negb (Ascii.eqb ch NUL) && negb (Ascii.eqb ch BACKSLASH)
  && negb (Ascii.eqb ch DOLLAR).

Definition is_ws (ch : ascii) : bool := mem ch whitespace.

(** A non-empty string whose first and last characters are not
    whitespace. *)
Definition no_ws_ends (a : cstring) : bool :=
  negb (is_ws (hd SPACE a)) && negb (is_ws (last a SPACE)).

(** The value of a decimal literal (optional sign, digits, optional
    fraction), as a rational: what [strtod] returns on such a literal up to
    the rounding to [double].  Exponents, hexadecimal forms, infinities and
    NaN are not read.  Used only to instantiate the [strtod] parameter. *)
Definition is_digit (c : ascii) : bool :=
  ((48 <=? N_of_ascii c) && (N_of_ascii c <=? 57))%N.

Definition digit_value (c : ascii) : Z := Z.of_N (N_of_ascii c) - 48.

Fixpoint read_digits (frac : bool) (s : cstring) (num : Z) (den : positive)
  : Z * positive * cstring :=
  match s with
  | c :: r =>
      if is_digit c
      then read_digits frac r (10 * num + digit_value c)
             (if frac then (10 * den)%positive else den)
      else (num, den, s)
  | [] => (num, den, [])
  end.

Fixpoint skip_ws (s : cstring) : cstring :=
  match s with
  | c :: r => if is_ws c then skip_ws r else s
  | [] => []
  end.

Definition strtod_decimal (s : cstring) : Q :=
  let s := skip_ws s in
  let (neg, s) :=
    match s with
    | c :: r => if Ascii.eqb c "-"%char then (true, r)
                else if Ascii.eqb c "+"%char then (false, r)
                else (false, s)
    | [] => (false, s)
    end in
  let '(n, d, rest) := read_digits false s 0 1 in
  let '(n, d, _) :=
    match rest with
    | c :: r => if Ascii.eqb c "."%char then read_digits true r n d
                else (n, d, rest)
    | [] => (n, d, rest)
    end in
  if neg then Qmake (- n) d else Qmake n d.

(** [ch] does not occur in [s]. *)
Definition absent (ch : ascii) (s : cstring) : bool :=
  negb (existsb (Ascii.eqb ch) s).

(** Entries that the text format can carry: the key has no whitespace at
    its ends, no [=], no line feed, and does not start with [#]; the value
    has no whitespace at its ends and no line feed; the line fits an
    [int]. *)
Definition portable_key (k : cstring) : bool :=
  no_ws_ends k && absent EQUALS k && absent LF k
  && negb (Ascii.eqb (hd NUL k) HASH).

Definition portable_value (v : cstring) : bool :=
  (is_empty v || no_ws_ends v) && absent LF v.

Definition portable (e : cstring * cstring) : bool :=
  portable_key (fst e) && portable_value (snd e)
  && (size (fst e) + size (snd e) + 4 <? two31).

(** What follows the [=] in the trimmed line of an entry. *)
Definition value_field (v : cstring) : cstring :=
  if is_empty v then [] else SPACE :: v.

(** The line of an entry, read back and trimmed by [read_from_file]. *)
Definition trimmed_line (e : cstring * cstring) : cstring :=
  (fst e ++ [SPACE; EQUALS]) ++ value_field (snd e).

(** The line [dump] writes for an entry, without and with its line feed. *)
Definition line_body (e : cstring * cstring) : cstring :=
  fst e ++ [SPACE; EQUALS; SPACE] ++ snd e.

Definition entry_line (e : cstring * cstring) : cstring :=
  line_body e ++ [LF].

(** The resolved value of a key: what [get_value] leaves in [reserve_];
    [Some None] when the key is absent. *)
Definition resolve (k : cstring) (st : setting) : option (option cstring) :=
  match get_value k st with
  | Some (true, st') => Some (Some (reserve_ st'))
  | Some (false, _) => Some None
  | None => None
  end.

(** The segments of a string between its commas. *)
Fixpoint segments (s cur : cstring) : list cstring :=
  match s with
  | [] => [cur]
  | c :: r =>
      if Ascii.eqb c COMMA then cur :: segments r []
      else segments r (cur ++ [c])
  end.

(** [trim] applied to each segment in turn, the non-empty results appended
    to [vec]. *)
Fixpoint collect (segs : list cstring) (vec : list cstring)
  : option (list cstring) :=
  match segs with
  | [] => Some vec
  | g :: r =>
      t <- trim g ;;
      collect r (if negb (is_empty t) then vec ++ [t] else vec)
  end.

(** A text that ends the identifier of a bare reference put before it: it
    is empty, or starts with a character that is neither an identifier
    character nor an opening brace. *)
Definition ends_identifier (rest : cstring) : bool :=
  match rest with
  | [] => true
  | t :: _ => negb (check_identifier t) && negb (Ascii.eqb t LBRACE)
  end.

(** A line made of a key part, the separator and a value part. *)
Definition line_of (kp vp : cstring) : cstring := kp ++ EQUALS :: vp.

(** No entry of the map has the empty key. *)
Definition keys_nonempty (m : item_type) : Prop :=
  Forall (fun e => fst e <> []) m.

(** A text file: the given lines, each followed by a line feed, and a last
    piece [tail] without line feed. *)
Definition file_text (lines : list cstring) (tail : cstring) : cstring :=
  List.concat (map (fun l => l ++ [LF]) lines) ++ tail.

(** Every key of the map is a core: non-empty, no whitespace at its ends. *)
Definition keys_clean (m : item_type) : Prop :=
  Forall (fun e => no_ws_ends (fst e) = true) m.

(** Stores used in the examples. *)
Definition store_b : item_type := [(str "b", str "X")].
Definition store_y : item_type := [(str "y", str "Y")].

(** The store after [cfg << "double = 3.1415926"] on a fresh object. *)
Definition store_double : setting :=
  {| recursion_level_ := 3; map_ := [(str "double", str "3.1415926")];
     reserve_ := [] |}.

(** The store after [cfg << "vector = el1,el2 ,el3, el4"] and
    [cfg << "spaced = el1, el2 ,el3"]. *)
Definition store_vector : setting :=
  {| recursion_level_ := 3;
     map_ := [(str "spaced", str "el1, el2 ,el3");
              (str "vector", str "el1,el2 ,el3, el4")];
     reserve_ := [] |}.

(** The store after [cfg << "#k = v"] on a fresh object. *)
Definition store_hash : setting :=
  {| recursion_level_ := 3; map_ := [(str "#k", str "v")]; reserve_ := [] |}.

(** The store after [cfg << "b = 1"] and [cfg << "a = $b"]. *)
Definition store_ab : setting :=
  {| recursion_level_ := 3; map_ := [(str "a", str "$b"); (str "b", str "1")];
     reserve_ := [] |}.

(** * Proofs *)

(** ** The scanner *)

Lemma body_shift m c ch p :
  body m c ch p = (fst (body m c ch 0), p + snd (body m c ch 0)).
Proof.
  unfold body.
  destruct (next_state (state c) ch); cbn [fst snd]; try (f_equal; lia).
  all: destruct (negb (brace_open c && Ascii.eqb ch RBRACE));
    f_equal; lia.
Qed.

Lemma nth_middle_size (pre suf : cstring) (a : ascii) :
  nth (Z.to_nat (size pre)) (pre ++ a :: suf) NUL = a.
Proof.
  unfold size. rewrite Nat2Z.id. apply nth_middle.
Qed.

Lemma nth_end_size (pre : cstring) :
  nth (Z.to_nat (size pre)) (pre ++ []) NUL = NUL.
Proof.
  unfold size. rewrite Nat2Z.id, app_nil_r. apply nth_overflow. lia.
Qed.

Lemma size_snoc (pre : cstring) (a : ascii) : size (pre ++ [a]) = size pre + 1.
Proof. unfold size. rewrite length_app. cbn. lia. Qed.

Lemma parse_loop_S fuel m s c p :
  parse_loop (S fuel) m s c p =
  let ch := nth (Z.to_nat p) s NUL in
  let c' := fst (body m c ch 0) in
  if is_final (state c') then Some (out c')
  else parse_loop fuel m s c' (p + snd (body m c ch 0) + 1).
Proof.
  cbn [parse_loop]. rewrite body_shift. reflexivity.
Qed.

Lemma next_state_NUL st :
  is_final (next_state st NUL) = true.
Proof. destruct st; reflexivity. Qed.

Lemma next_state_not_final st a :
  a <> NUL -> is_final (next_state st a) = false.
Proof.
  intros Ha. apply Ascii.eqb_neq in Ha. unfold next_state. rewrite Ha.
  destruct (Ascii.eqb a BACKSLASH); [reflexivity|].
  destruct (Ascii.eqb a DOLLAR && negb (pstate_eqb st PS_ESCAPE));
    [reflexivity|].
  destruct st; cbn;
    repeat match goal with
           | |- context [if ?b then _ else _] => destruct b
           end; reflexivity.
Qed.

Lemma body_state m c ch p : state (fst (body m c ch p)) = next_state (state c) ch.
Proof.
  unfold body. destruct (next_state (state c) ch); cbn [fst state];
    try reflexivity; destruct (map_find (key c) m); reflexivity.
Qed.

Lemma body_back m c ch :
  snd (body m c ch 0) = 0
  \/ (snd (body m c ch 0) = -1
      /\ (next_state (state c) ch = PS_REPLACE
          \/ next_state (state c) ch = PS_REPLACE_FINISH)).
Proof.
  unfold body. destruct (next_state (state c) ch); cbn [snd]; auto;
    destruct (negb (brace_open c && Ascii.eqb ch RBRACE)); auto.
Qed.

Lemma next_state_after_replace a :
  next_state PS_REPLACE a <> PS_REPLACE
  /\ next_state PS_REPLACE a <> PS_REPLACE_FINISH.
Proof.
  unfold next_state. cbn [pstate_eqb negb andb].
  destruct (Ascii.eqb a BACKSLASH); [split; discriminate|].
  destruct (Ascii.eqb a NUL); [split; discriminate|].
  rewrite andb_true_r.
  destruct (Ascii.eqb a DOLLAR); split; discriminate.
Qed.

Lemma parse_loop_finish m s c p fuel :
  nth (Z.to_nat p) s NUL = NUL ->
  parse_loop (S fuel) m s c p = Some (finish m c).
Proof.
  intros H. rewrite parse_loop_S. cbn zeta. rewrite H, body_state.
  rewrite next_state_NUL. reflexivity.
Qed.

Lemma parse_loop_feed m s c p a fuel :
  nth (Z.to_nat p) s NUL = a -> a <> NUL ->
  parse_loop (S (S fuel)) m s c p = parse_loop (S fuel) m s (feed m c a) (p + 1)
  \/ parse_loop (S (S fuel)) m s c p = parse_loop fuel m s (feed m c a) (p + 1).
Proof.
  intros H Ha.
  rewrite (parse_loop_S (S fuel)). cbn zeta. rewrite H, body_state.
  rewrite (next_state_not_final _ _ Ha).
  unfold feed. destruct (body m c a 0) as [c1 d] eqn:E. cbn [fst snd].
  destruct (body_back m c a) as [Hd | [Hd Hs]]; rewrite E in Hd; cbn in Hd;
    subst d.
  - left. replace (p + 0 + 1) with (p + 1) by lia. reflexivity.
  - right. replace (p + -1 + 1) with p by lia.
    assert (Hc1 : state c1 = PS_REPLACE).
    { pose proof (body_state m c a 0) as Hb. rewrite E in Hb. cbn in Hb.
      destruct Hs as [Hs | Hs]; [congruence|].
      pose proof (next_state_not_final (state c) a Ha) as Hf.
      rewrite Hs in Hf. discriminate. }
    rewrite parse_loop_S. cbn zeta. rewrite H, body_state.
    rewrite (next_state_not_final _ _ Ha).
    destruct (body_back m c1 a) as [Hd | [Hd Hs']].
    + rewrite Hd. cbn [Z.ltb Z.compare].
      replace (p + 0 + 1) with (p + 1) by lia. reflexivity.
    + exfalso. rewrite Hc1 in Hs'.
      destruct (next_state_after_replace a) as [N1 N2].
      destruct Hs'; contradiction.
Qed.

Lemma parse_loop_scan m : forall suf pre c fuel,
  (2 * List.length suf + 1 <= fuel)%nat ->
  parse_loop fuel m (pre ++ suf) c (size pre) = Some (scan m c suf).
Proof.
  induction suf as [|a r IH]; intros pre c fuel Hf.
  - destruct fuel as [|f]; [cbn in Hf; lia|].
    apply parse_loop_finish. apply nth_end_size.
  - cbn [List.length] in Hf.
    destruct fuel as [|[|f]]; try lia.
    cbn [scan]. destruct (Ascii.eqb a NUL) eqn:Ea.
    + apply Ascii.eqb_eq in Ea. subst a.
      apply parse_loop_finish. apply nth_middle_size.
    + apply Ascii.eqb_neq in Ea.
      assert (Hr : forall g, (2 * List.length r + 1 <= g)%nat ->
                parse_loop g m (pre ++ a :: r) (feed m c a) (size pre + 1)
                = Some (scan m (feed m c a) r)).
      { intros g Hg. rewrite <- (size_snoc pre a).
        replace (pre ++ a :: r) with ((pre ++ [a]) ++ r)
          by (rewrite <- app_assoc; reflexivity).
        apply IH. exact Hg. }
      destruct (parse_loop_feed m (pre ++ a :: r) c (size pre) a f
                  (nth_middle_size pre r a) Ea) as [E | E];
        rewrite E; apply Hr; lia.
Qed.

(** [parse_once] always returns, and returns what the scanner computes. *)
Lemma parse_once_pass m s : parse_once m s = Some (pass m s).
Proof.
  unfold parse_once, pass.
  exact (parse_loop_scan m s [] scanner_init _ (Nat.le_refl _)).
Qed.

(** ** [find] *)

Lemma find_from_absent ch : forall s i,
  ~ In ch s -> find_from ch s i = npos.
Proof.
  induction s as [|c r IH]; intros i H; [reflexivity|].
  cbn [find_from]. destruct (Ascii.eqb c ch) eqn:E.
  - apply Ascii.eqb_eq in E. subst c. exfalso. apply H. left. reflexivity.
  - apply IH. intros HI. apply H. right. exact HI.
Qed.

Lemma find_from_present ch : forall s i,
  In ch s -> i <= find_from ch s i < i + size s.
Proof.
  induction s as [|c r IH]; intros i H; [destruct H|].
  cbn [find_from]. unfold size. cbn [List.length]. rewrite Nat2Z.inj_succ.
  destruct (Ascii.eqb c ch) eqn:E; [lia|].
  destruct H as [H | H].
  - subst c. rewrite Ascii.eqb_refl in E. discriminate.
  - specialize (IH (i + 1) H). unfold size in IH. lia.
Qed.

Lemma size_nonneg s : 0 <= size s.
Proof. unfold size. lia. Qed.

Lemma find_0 ch s : find ch s 0 = find_from ch s 0.
Proof.
  unfold find. pose proof (size_nonneg s).
  destruct (size s <? 0) eqn:E; [apply Z.ltb_lt in E; lia|]. reflexivity.
Qed.

Lemma find_dollar_test v :
  size v < npos ->
  (find DOLLAR v 0 <? npos) = existsb (Ascii.eqb DOLLAR) v.
Proof.
  intros Hv. rewrite find_0.
  destruct (existsb (Ascii.eqb DOLLAR) v) eqn:E.
  - apply existsb_exists in E. destruct E as [x [Hx E]].
    apply Ascii.eqb_eq in E. subst x.
    pose proof (find_from_present DOLLAR v 0 Hx). apply Z.ltb_lt. lia.
  - rewrite find_from_absent; [reflexivity|].
    intros HI. assert (existsb (Ascii.eqb DOLLAR) v = true); [|congruence].
    apply existsb_exists. exists DOLLAR. split; [exact HI|].
    apply Ascii.eqb_refl.
Qed.

(** ** [parse_recursive] *)

Lemma parse_recursive_loop_stop m s : forall n lhs,
  (find DOLLAR s 0 <? npos) = false ->
  parse_recursive_loop n m s lhs = Some lhs.
Proof.
  intros [|n] lhs H; cbn [parse_recursive_loop]; [reflexivity|].
  rewrite H. reflexivity.
Qed.

Lemma iter_pass_shift m n lhs :
  Nat.iter n (pass m) (pass m lhs) = pass m (Nat.iter n (pass m) lhs).
Proof.
  induction n as [|n IH]; [reflexivity|]. simpl. rewrite IH.
  reflexivity.
Qed.

Lemma parse_recursive_loop_go m s : forall n lhs,
  (find DOLLAR s 0 <? npos) = true ->
  parse_recursive_loop n m s lhs = Some (Nat.iter n (pass m) lhs).
Proof.
  induction n as [|n IH]; intros lhs H; [reflexivity|].
  cbn [parse_recursive_loop]. rewrite H, parse_once_pass.
  rewrite (IH _ H), iter_pass_shift. reflexivity.
Qed.

(** C2.  [parse_recursive] tests the original string for a dollar sign:
    without one no pass runs and the value is returned as it is; with one,
    exactly [level] passes run, each on the output of the one before,
    whatever the intermediate results contain.  A pass always returns: it
    is the total function [pass]. *)
Theorem parse_recursive_passes (level : nat) (m : item_type) (v : cstring) :
  size v < npos ->
  (forall s, parse_once m s = Some (pass m s))
  /\ (~ In DOLLAR v -> parse_recursive level m v = Some v)
  /\ (In DOLLAR v ->
      parse_recursive level m v = Some (Nat.iter level (pass m) v)).
Proof.
  intros Hv. pose proof (find_dollar_test v Hv) as T.
  split; [apply parse_once_pass|]. split; intros H.
  - apply parse_recursive_loop_stop. rewrite T.
    destruct (existsb (Ascii.eqb DOLLAR) v) eqn:E; [|reflexivity].
    apply existsb_exists in E. destruct E as [x [Hx E]].
    apply Ascii.eqb_eq in E. subst x. contradiction.
  - apply parse_recursive_loop_go. rewrite T.
    apply existsb_exists. exists DOLLAR. split; [exact H|].
    apply Ascii.eqb_refl.
Qed.

(** ** What [feed] does, state by state *)

Lemma ident_not_special ch :
  check_identifier ch = true ->
  Ascii.eqb ch NUL = false /\ Ascii.eqb ch BACKSLASH = false
  /\ Ascii.eqb ch DOLLAR = false /\ Ascii.eqb ch LBRACE = false
  /\ Ascii.eqb ch RBRACE = false.
Proof.
  destruct ch as [[] [] [] [] [] [] [] []]; vm_compute; intros H;
    try discriminate H; repeat split.
Qed.

Lemma feed_backslash m c :
  feed m c BACKSLASH =
  {| state := PS_ESCAPE; brace_open := brace_open c; key := key c;
     out := out c |}.
Proof. reflexivity. Qed.

Lemma feed_escaped m c ch :
  state c = PS_ESCAPE -> ch <> NUL -> ch <> BACKSLASH ->
  feed m c ch =
  {| state := PS_UNKNOW; brace_open := brace_open c; key := key c;
     out := out c ++ [ch] |}.
Proof.
  intros Hs H0 Hb. apply Ascii.eqb_neq in H0, Hb.
  unfold feed, body, next_state. rewrite Hs, H0, Hb. cbn.
  rewrite andb_false_r. reflexivity.
Qed.

Lemma feed_dollar m c :
  state c <> PS_ESCAPE ->
  feed m c DOLLAR =
  {| state := PS_DOLLAR; brace_open := brace_open c; key := key c;
     out := out c |}.
Proof.
  intros Hs. unfold feed, body, next_state. cbn.
  destruct (state c); try contradiction; reflexivity.
Qed.

Lemma feed_lbrace_after_dollar m c :
  state c = PS_DOLLAR ->
  feed m c LBRACE =
  {| state := PS_FETCHKEY; brace_open := true; key := key c; out := out c |}.
Proof.
  intros Hs. unfold feed, body, next_state. rewrite Hs. reflexivity.
Qed.

Lemma feed_ident_after_dollar m c ch :
  state c = PS_DOLLAR -> check_identifier ch = true ->
  feed m c ch =
  {| state := PS_FETCHKEY; brace_open := brace_open c; key := key c ++ [ch];
     out := out c |}.
Proof.
  intros Hs Hi. destruct (ident_not_special ch Hi) as (H0 & H1 & H2 & H3 & H4).
  unfold feed, body, next_state. rewrite Hs, H0, H1, H2. cbn.
  rewrite Hi, H3. reflexivity.
Qed.

Lemma feed_ident m c ch :
  state c = PS_FETCHKEY -> check_identifier ch = true ->
  feed m c ch =
  {| state := PS_FETCHKEY; brace_open := brace_open c; key := key c ++ [ch];
     out := out c |}.
Proof.
  intros Hs Hi. destruct (ident_not_special ch Hi) as (H0 & H1 & H2 & H3 & H4).
  unfold feed, body, next_state. rewrite Hs, H0, H1, H2. cbn.
  rewrite Hi, H3. reflexivity.
Qed.

(** A closing brace that ends an identifier while the flag is set: the
    lookup happens, [pch] is not stepped back. *)
Lemma feed_rbrace_flag_set m c :
  state c = PS_FETCHKEY -> brace_open c = true ->
  feed m c RBRACE =
  {| state := PS_REPLACE; brace_open := true;
     key := lookup_key m (key c); out := out c ++ lookup_text m (key c) |}.
Proof.
  intros Hs Hb. unfold feed, body, next_state, lookup_key, lookup_text.
  rewrite Hs, Hb. cbn.
  destruct (map_find (key c) m); cbn; rewrite ?app_nil_r; reflexivity.
Qed.

(** The same character while the flag is clear: the lookup happens, [pch]
    is stepped back and the brace is copied on the second look. *)
Lemma feed_rbrace_flag_clear m c :
  state c = PS_FETCHKEY -> brace_open c = false ->
  feed m c RBRACE =
  {| state := PS_UNKNOW; brace_open := false;
     key := lookup_key m (key c);
     out := (out c ++ lookup_text m (key c)) ++ [RBRACE] |}.
Proof.
  intros Hs Hb. unfold feed, body, next_state, lookup_key, lookup_text.
  rewrite Hs, Hb. cbn.
  destruct (map_find (key c) m); cbn; rewrite ?app_nil_r; reflexivity.
Qed.

Lemma body_brace_open m c ch p :
  brace_open c = true -> brace_open (fst (body m c ch p)) = true.
Proof.
  intros H. unfold body.
  destruct (next_state (state c) ch); cbn [fst brace_open]; try exact H.
  - destruct (Ascii.eqb ch LBRACE); [reflexivity | exact H].
  - destruct (map_find (key c) m); exact H.
  - destruct (map_find (key c) m); exact H.
Qed.

Lemma feed_brace_open m c ch :
  brace_open c = true -> brace_open (feed m c ch) = true.
Proof.
  intros H. unfold feed.
  pose proof (body_brace_open m c ch 0 H) as H1.
  destruct (body m c ch 0) as [c1 d]. cbn [fst] in H1.
  destruct (d <? 0); [|exact H1]. apply body_brace_open. exact H1.
Qed.

(** The flag is never cleared within a pass. *)
Lemma run_brace_open m : forall s c,
  brace_open c = true -> brace_open (run m c s) = true.
Proof.
  induction s as [|a r IH]; intros c H; [exact H|].
  cbn [run fold_left]. apply IH. apply feed_brace_open. exact H.
Qed.

Lemma run_app m c s t : run m c (s ++ t) = run m (run m c s) t.
Proof. unfold run. apply fold_left_app. Qed.

Lemma run_cons m c a s : run m c (a :: s) = run m (feed m c a) s.
Proof. reflexivity. Qed.

Lemma scan_run m : forall s c t,
  ~ In NUL s -> scan m c (s ++ t) = scan m (run m c s) t.
Proof.
  induction s as [|a r IH]; intros c t H; [reflexivity|].
  cbn [app scan]. destruct (Ascii.eqb a NUL) eqn:E.
  - apply Ascii.eqb_eq in E. subst a. exfalso. apply H. left. reflexivity.
  - rewrite run_cons. apply IH. intros HI. apply H. right. exact HI.
Qed.

(** Collecting the identifier of a bare reference. *)
Lemma run_identifier m : forall b c,
  state c = PS_FETCHKEY -> forallb check_identifier b = true ->
  run m c b =
  {| state := PS_FETCHKEY; brace_open := brace_open c; key := key c ++ b;
     out := out c |}.
Proof.
  induction b as [|a r IH]; intros c Hs Hb.
  - cbn. rewrite app_nil_r. destruct c; cbn in *; subst; reflexivity.
  - cbn [forallb] in Hb. apply andb_prop in Hb. destruct Hb as [Ha Hr].
    rewrite run_cons, (feed_ident m c a Hs Ha), IH by (auto).
    cbn. rewrite <- app_assoc. reflexivity.
Qed.

Lemma run_reference m c b :
  state c <> PS_ESCAPE -> b <> [] -> forallb check_identifier b = true ->
  run m c (DOLLAR :: b) =
  {| state := PS_FETCHKEY; brace_open := brace_open c; key := key c ++ b;
     out := out c |}.
Proof.
  intros Hs Hne Hb. destruct b as [|a r]; [contradiction|].
  cbn [forallb] in Hb. apply andb_prop in Hb. destruct Hb as [Ha Hr].
  rewrite run_cons, (feed_dollar m c Hs), run_cons.
  rewrite feed_ident_after_dollar by auto.
  rewrite run_identifier by auto. cbn. rewrite <- app_assoc. reflexivity.
Qed.

Lemma not_in_app_NUL (s t : cstring) :
  ~ In NUL s -> ~ In NUL t -> ~ In NUL (s ++ t).
Proof.
  intros Hs Ht H. apply in_app_or in H. destruct H; contradiction.
Qed.

Lemma ident_no_NUL b : forallb check_identifier b = true -> ~ In NUL b.
Proof.
  intros Hb H. rewrite forallb_forall in Hb. specialize (Hb NUL H).
  discriminate Hb.
Qed.

(** A bare reference closed by a brace, from a scanner whose flag is set. *)
Lemma run_reference_rbrace_flag_set m c b :
  state c <> PS_ESCAPE -> brace_open c = true ->
  b <> [] -> forallb check_identifier b = true ->
  run m c (DOLLAR :: b ++ [RBRACE]) =
  {| state := PS_REPLACE; brace_open := true;
     key := lookup_key m (key c ++ b);
     out := out c ++ lookup_text m (key c ++ b) |}.
Proof.
  intros Hs Hf Hne Hb.
  change (DOLLAR :: b ++ [RBRACE]) with ((DOLLAR :: b) ++ [RBRACE]).
  rewrite run_app, run_reference by assumption.
  cbn [run fold_left]. rewrite feed_rbrace_flag_set by (cbn; auto).
  reflexivity.
Qed.

(** The same reference from a scanner whose flag is clear. *)
Lemma run_reference_rbrace_flag_clear m c b :
  state c <> PS_ESCAPE -> brace_open c = false ->
  b <> [] -> forallb check_identifier b = true ->
  run m c (DOLLAR :: b ++ [RBRACE]) =
  {| state := PS_UNKNOW; brace_open := false;
     key := lookup_key m (key c ++ b);
     out := (out c ++ lookup_text m (key c ++ b)) ++ [RBRACE] |}.
Proof.
  intros Hs Hf Hne Hb.
  change (DOLLAR :: b ++ [RBRACE]) with ((DOLLAR :: b) ++ [RBRACE]).
  rewrite run_app, run_reference by assumption.
  cbn [run fold_left]. rewrite feed_rbrace_flag_clear by (cbn; auto).
  reflexivity.
Qed.

Lemma pass_split m (s t : cstring) :
  ~ In NUL s -> pass m (s ++ t) = scan m (run m scanner_init s) t.
Proof. intros H. unfold pass. apply scan_run. exact H. Qed.

(** C10.  The brace flag of a pass is set by the first [${] and never
    cleared.  Take any input [pre ++ "${" ++ s ++ "$" ++ b ++ "}" ++ rest]
    in which both dollar signs start a reference and [b] is an identifier:
    the scanner reaches the bare reference [$b] with the flag set, the
    brace after [b] is consumed (the scan goes on in state [PS_REPLACE] on
    [rest], nothing but the looked-up text was appended).  Reached with the
    flag clear, the same [$b}] copies the brace to the output and goes on in
    state [PS_UNKNOW]. *)
Theorem brace_flag_never_reset (m : item_type) (pre s b rest : cstring) :
  ~ In NUL pre -> ~ In NUL s ->
  state (run m scanner_init pre) <> PS_ESCAPE ->
  state (run m scanner_init (pre ++ DOLLAR :: LBRACE :: s)) <> PS_ESCAPE ->
  b <> [] -> forallb check_identifier b = true ->
  let c := run m scanner_init (pre ++ DOLLAR :: LBRACE :: s) in
  brace_open c = true
  /\ parse_once m
       ((pre ++ DOLLAR :: LBRACE :: s) ++ (DOLLAR :: b ++ [RBRACE]) ++ rest)
     = Some (scan m
               {| state := PS_REPLACE; brace_open := true;
                  key := lookup_key m (key c ++ b);
                  out := out c ++ lookup_text m (key c ++ b) |} rest)
  /\ (forall pre0, ~ In NUL pre0 ->
        let c0 := run m scanner_init pre0 in
        state c0 <> PS_ESCAPE -> brace_open c0 = false ->
        parse_once m (pre0 ++ (DOLLAR :: b ++ [RBRACE]) ++ rest)
        = Some (scan m
                  {| state := PS_UNKNOW; brace_open := false;
                     key := lookup_key m (key c0 ++ b);
                     out := (out c0 ++ lookup_text m (key c0 ++ b))
                            ++ [RBRACE] |} rest)).
Proof.
  intros Hpre Hs Hst1 Hst2 Hne Hb c.
  assert (Hflag : brace_open c = true).
  { unfold c. rewrite run_app, !run_cons.
    apply run_brace_open.
    rewrite feed_dollar by exact Hst1.
    rewrite feed_lbrace_after_dollar by reflexivity. reflexivity. }
  assert (Hrb : ~ In NUL (DOLLAR :: b ++ [RBRACE])).
  { intros [H | H]; [discriminate H|].
    apply in_app_or in H. destruct H as [H | [H | []]];
      [exact (ident_no_NUL b Hb H) | discriminate H]. }
  split; [exact Hflag|]. split.
  - rewrite parse_once_pass. f_equal.
    rewrite pass_split.
    2:{ apply not_in_app_NUL; [exact Hpre|].
        intros [H | [H | H]]; [discriminate H | discriminate H |].
        exact (Hs H). }
    fold c. rewrite scan_run by exact Hrb.
    rewrite run_reference_rbrace_flag_set by assumption. reflexivity.
  - intros pre0 Hpre0 c0 Hc0 Hf0.
    rewrite parse_once_pass. f_equal.
    rewrite pass_split by exact Hpre0. fold c0.
    rewrite scan_run by exact Hrb.
    rewrite run_reference_rbrace_flag_clear by assumption. reflexivity.
Qed.

(** ** Escapes *)

Lemma feed_plain m c ch :
  state c = PS_UNKNOW -> plain_char ch = true ->
  feed m c ch =
  {| state := PS_UNKNOW; brace_open := brace_open c; key := key c;
     out := out c ++ [ch] |}.
Proof.
  intros Hs Hp. unfold plain_char in Hp.
  apply andb_prop in Hp. destruct Hp as [Hp H2].
  apply andb_prop in Hp. destruct Hp as [H0 H1].
  apply negb_true_iff in H0, H1, H2.
  unfold feed, body, next_state. rewrite Hs, H0, H1, H2. reflexivity.
Qed.

Lemma scan_plain m : forall b c,
  state c = PS_UNKNOW -> forallb plain_char b = true ->
  scan m c b = out c ++ b.
Proof.
  induction b as [|a r IH]; intros c Hs Hb.
  - cbn [scan]. unfold finish, body, next_state. rewrite Hs. cbn.
    rewrite app_nil_r. reflexivity.
  - cbn [forallb] in Hb. apply andb_prop in Hb. destruct Hb as [Ha Hr].
    cbn [scan].
    assert (H0 : Ascii.eqb a NUL = false).
    { unfold plain_char in Ha. destruct (Ascii.eqb a NUL); [discriminate|].
      reflexivity. }
    rewrite H0, (feed_plain m c a Hs Ha), IH by auto.
    cbn. rewrite <- app_assoc. reflexivity.
Qed.

Lemma run_escape m c ch :
  ch <> NUL -> ch <> BACKSLASH ->
  run m c [BACKSLASH; ch] =
  {| state := PS_UNKNOW; brace_open := brace_open c; key := key c;
     out := out c ++ [ch] |}.
Proof.
  intros H0 Hb. cbn [run fold_left]. rewrite feed_backslash.
  rewrite feed_escaped by (auto || reflexivity). reflexivity.
Qed.

(** C1, as the code has it.  Within one pass a backslash is consumed
    without being copied, and the character after it (any character but a
    backslash or the end of the string) is copied as it is, whatever the
    scanner was doing: no lookup, no change of the identifier buffer or of
    the brace flag.  Hence a value [\$b], with [b] free of backslashes and
    dollar signs, comes out of one pass as [$b], and resolving it with
    [recursion_level_ = 1] yields [$b]: nothing is substituted. *)
Theorem escape_single_pass (m : item_type) (pre rest : cstring) (ch : ascii) :
  ~ In NUL pre -> ch <> NUL -> ch <> BACKSLASH ->
  let c := run m scanner_init pre in
  parse_once m ((pre ++ [BACKSLASH; ch]) ++ rest)
  = Some (scan m {| state := PS_UNKNOW; brace_open := brace_open c;
                    key := key c; out := out c ++ [ch] |} rest)
  /\ (forall b, forallb plain_char b = true ->
        parse_once m (BACKSLASH :: DOLLAR :: b) = Some (DOLLAR :: b)
        /\ parse_recursive 1 m (BACKSLASH :: DOLLAR :: b)
           = Some (DOLLAR :: b)).
Proof.
  intros Hpre H0 Hb c. split.
  - rewrite parse_once_pass. f_equal. rewrite pass_split.
    2:{ apply not_in_app_NUL; [exact Hpre|].
        intros [H | [H | []]]; [discriminate H | congruence]. }
    rewrite run_app. fold c. rewrite run_escape by assumption. reflexivity.
  - intros b Hp.
    assert (E : parse_once m (BACKSLASH :: DOLLAR :: b) = Some (DOLLAR :: b)).
    { rewrite parse_once_pass. f_equal. unfold pass. cbn [scan].
      change (Ascii.eqb BACKSLASH NUL) with false.
      change (Ascii.eqb DOLLAR NUL) with false. cbn iota.
      rewrite feed_backslash, feed_escaped by (reflexivity || discriminate).
      rewrite scan_plain by (reflexivity || exact Hp). reflexivity. }
    split; [exact E|].
    unfold parse_recursive. cbn [parse_recursive_loop].
    rewrite find_0. cbn [find_from].
    change (Ascii.eqb BACKSLASH DOLLAR) with false.
    change (Ascii.eqb DOLLAR DOLLAR) with true. cbn iota.
    change (0 + 1 <? npos) with true. cbn iota. rewrite E. reflexivity.
Qed.

(** C1 as stated fails: with [b = X] in the store, one pass over [\$b]
    gives [$b], in which no backslash is left, and the default three
    passes resolve [\$b] to [X], the value of [b]. *)
Lemma escaped_dollar_resolved :
  parse_once store_b (str "\$b") = Some (str "$b")
  /\ ~ In BACKSLASH (str "$b")
  /\ map_find (str "b") store_b = Some (str "X")
  /\ parse_recursive 3 store_b (str "\$b") = Some (str "X").
Proof.
  repeat split; try reflexivity.
  intros [H | [H | []]]; discriminate H.
Qed.

(** ** References *)

(** A character that ends an identifier and is looked at again: neither
    an identifier character nor one of the markers, and not a closing brace
    while the flag is set. *)
Lemma feed_terminator m c t :
  state c = PS_FETCHKEY -> check_identifier t = false ->
  t <> NUL -> t <> BACKSLASH -> t <> DOLLAR -> t <> LBRACE ->
  brace_open c && Ascii.eqb t RBRACE = false ->
  feed m c t =
  {| state := PS_UNKNOW; brace_open := brace_open c;
     key := lookup_key m (key c);
     out := (out c ++ lookup_text m (key c)) ++ [t] |}.
Proof.
  intros Hs Hi H0 H1 H2 H3 Hb.
  apply Ascii.eqb_neq in H0, H1, H2, H3.
  unfold feed, body, next_state, lookup_key, lookup_text.
  rewrite Hs, H0, H1, H2, H3, Hi, Hb. cbn.
  destruct (map_find (key c) m); cbn; rewrite ?app_nil_r; reflexivity.
Qed.

(** A reference [$b] followed by such a character: the key looked up is
    what the identifier buffer held before, followed by [b]; it is [b] when
    the buffer was empty, that is when no lookup has failed before in the
    pass. *)
Lemma run_reference_terminated m c b t :
  state c <> PS_ESCAPE -> b <> [] -> forallb check_identifier b = true ->
  check_identifier t = false ->
  t <> NUL -> t <> BACKSLASH -> t <> DOLLAR -> t <> LBRACE ->
  brace_open c && Ascii.eqb t RBRACE = false ->
  run m c ((DOLLAR :: b) ++ [t]) =
  {| state := PS_UNKNOW; brace_open := brace_open c;
     key := lookup_key m (key c ++ b);
     out := (out c ++ lookup_text m (key c ++ b)) ++ [t] |}.
Proof.
  intros Hs Hne Hb Hi H0 H1 H2 H3 Hf.
  rewrite run_app, run_reference by assumption.
  cbn [run fold_left]. rewrite feed_terminator by (cbn; auto).
  reflexivity.
Qed.

(** The same reference at the end of the string. *)
Lemma finish_reference m c b :
  state c <> PS_ESCAPE -> b <> [] -> forallb check_identifier b = true ->
  finish m (run m c (DOLLAR :: b)) = out c ++ lookup_text m (key c ++ b).
Proof.
  intros Hs Hne Hb. rewrite run_reference by assumption.
  unfold finish, body, next_state, lookup_text. cbn.
  destruct (map_find (key c ++ b) m); cbn; rewrite ?app_nil_r; reflexivity.
Qed.

(** C3 at its failing input.  In [$x $y] with [y = Y] and no [x], the
    identifier buffer still holds [x] when [$y] is collected: the key looked
    up at the end of the string is [xy], and nothing is appended where the
    value of [y] should be.  Alone, [$y] is replaced by [Y]. *)
Theorem stale_identifier_lookup :
  map_find (str "y") store_y = Some (str "Y")
  /\ parse_once store_y (str "$y") = Some (str "Y")
  /\ key (run store_y scanner_init (str "$x $y")) = str "xy"
  /\ parse_once store_y (str "$x $y") = Some (str " ").
Proof. repeat split. Qed.

(** ** [trim] *)

Lemma size_app (s t : cstring) : size (s ++ t) = size s + size t.
Proof. unfold size. rewrite length_app. lia. Qed.

Lemma size_cons (a : ascii) (s : cstring) : size (a :: s) = size s + 1.
Proof. unfold size. cbn [List.length]. lia. Qed.

Lemma ffno_skip_ws : forall w s i,
  forallb is_ws w = true ->
  find_first_not_of_from whitespace (w ++ s) i
  = find_first_not_of_from whitespace s (i + size w).
Proof.
  induction w as [|c r IH]; intros s i H.
  - cbn. f_equal. unfold size. cbn. lia.
  - cbn [forallb] in H. apply andb_prop in H. destruct H as [Hc Hr].
    cbn [app find_first_not_of_from]. unfold is_ws in Hc. rewrite Hc.
    rewrite IH by exact Hr. f_equal. rewrite size_cons. lia.
Qed.

Lemma ffno_all_ws : forall w i,
  forallb is_ws w = true -> find_first_not_of_from whitespace w i = npos.
Proof.
  intros w i H. rewrite <- (app_nil_r w), ffno_skip_ws by exact H.
  reflexivity.
Qed.

Lemma ffno_head c r i :
  is_ws c = false -> find_first_not_of_from whitespace (c :: r) i = i.
Proof.
  intros H. cbn [find_first_not_of_from]. unfold is_ws in H. rewrite H.
  reflexivity.
Qed.

Lemma flno_all_ws : forall w i last,
  forallb is_ws w = true -> find_last_not_of_from whitespace w i last = last.
Proof.
  induction w as [|c r IH]; intros i last H; [reflexivity|].
  cbn [forallb] in H. apply andb_prop in H. destruct H as [Hc Hr].
  cbn [find_last_not_of_from]. unfold is_ws in Hc. rewrite Hc.
  apply IH. exact Hr.
Qed.

Lemma flno_last : forall t y w i last,
  is_ws y = false -> forallb is_ws w = true ->
  find_last_not_of_from whitespace (t ++ y :: w) i last = i + size t.
Proof.
  induction t as [|c r IH]; intros y w i last Hy Hw.
  - cbn [app find_last_not_of_from]. unfold is_ws in Hy. rewrite Hy.
    rewrite flno_all_ws by exact Hw. unfold size. cbn. lia.
  - cbn [app find_last_not_of_from]. rewrite IH by assumption.
    rewrite size_cons. lia.
Qed.

Lemma firstn_app_all {A} (a w : list A) n :
  firstn (List.length a + n) (a ++ w) = a ++ firstn n w.
Proof.
  rewrite firstn_app. rewrite firstn_all2 by lia. f_equal. f_equal. lia.
Qed.

Lemma firstn_min {A} (w : list A) n :
  firstn (Nat.min n (List.length w)) w = firstn n w.
Proof.
  destruct (Nat.le_ge_cases n (List.length w)) as [H | H].
  - rewrite Nat.min_l by exact H. reflexivity.
  - rewrite Nat.min_r by exact H. rewrite !firstn_all2 by lia. reflexivity.
Qed.

Lemma no_ws_ends_split a :
  no_ws_ends a = true ->
  exists t y, a = t ++ [y] /\ is_ws y = false /\ is_ws (hd y t) = false.
Proof.
  unfold no_ws_ends. intros H. apply andb_prop in H. destruct H as [Hh Hl].
  apply negb_true_iff in Hh, Hl.
  destruct a as [|x r]; [discriminate Hh|].
  destruct (exists_last (l := x :: r)) as [t [y E]]; [discriminate|].
  exists t, y. rewrite E in Hl, Hh. rewrite last_last in Hl.
  split; [exact E|]. split; [exact Hl|].
  destruct t as [|x' t']; [exact Hl | exact Hh].
Qed.

(** What [trim] computes: the leading whitespace goes, and of the trailing
    whitespace as many characters stay as there were leading ones, since
    [substr] is given [end + 1] as a length. *)
Lemma trim_shape (w1 a w2 : cstring) :
  forallb is_ws w1 = true -> forallb is_ws w2 = true ->
  no_ws_ends a = true ->
  size (w1 ++ a ++ w2) < npos ->
  trim (w1 ++ a ++ w2) = Some (a ++ firstn (List.length w1) w2).
Proof.
  intros H1 H2 Ha Hsz.
  destruct (no_ws_ends_split a Ha) as (t & y & Ea & Hy & Hh).
  rewrite !size_app in Hsz.
  pose proof (size_nonneg w1). pose proof (size_nonneg w2).
  pose proof (size_nonneg t).
  assert (Esz : size a = size t + 1)
    by (rewrite Ea, size_app; reflexivity).
  assert (Hb : find_first_not_of whitespace (w1 ++ a ++ w2) = size w1).
  { unfold find_first_not_of. rewrite ffno_skip_ws by exact H1.
    rewrite Ea. destruct t as [|x t'].
    - cbn [app]. rewrite ffno_head by exact Hy. lia.
    - cbn [app]. cbn [hd] in Hh. rewrite ffno_head by exact Hh. lia. }
  assert (He : find_last_not_of whitespace (w1 ++ a ++ w2)
               = size w1 + size t).
  { unfold find_last_not_of. rewrite Ea.
    replace (w1 ++ (t ++ [y]) ++ w2) with ((w1 ++ t) ++ y :: w2)
      by (rewrite <- !app_assoc; reflexivity).
    rewrite flno_last by assumption. rewrite size_app. lia. }
  unfold trim. rewrite Hb, He.
  destruct (size w1 =? npos) eqn:E; [apply Z.eqb_eq in E; lia|].
  unfold to_size_t. rewrite Z.mod_small by (unfold two64, npos in *; lia).
  unfold substr. rewrite !size_app.
  destruct (size w1 + (size a + size w2) <? size w1) eqn:E2;
    [apply Z.ltb_lt in E2; lia|].
  f_equal.
  replace (Z.to_nat (size w1)) with (List.length w1)
    by (unfold size; lia).
  rewrite skipn_app, skipn_all, Nat.sub_diag. cbn [skipn app].
  replace (Z.to_nat _) with
    (List.length a + Nat.min (List.length w1) (List.length w2))%nat
    by (unfold size in *; lia).
  rewrite firstn_app_all, firstn_min. reflexivity.
Qed.

Lemma trim_all_ws w : forallb is_ws w = true -> trim w = Some [].
Proof.
  intros H. unfold trim, find_first_not_of. rewrite ffno_all_ws by exact H.
  reflexivity.
Qed.

(** Without leading whitespace [trim] removes the trailing whitespace. *)
Lemma trim_right (a w : cstring) :
  forallb is_ws w = true -> no_ws_ends a = true -> size (a ++ w) < npos ->
  trim (a ++ w) = Some a.
Proof.
  intros Hw Ha Hsz.
  pose proof (trim_shape [] a w eq_refl Hw Ha Hsz) as H.
  cbn [app List.length firstn] in H. rewrite app_nil_r in H. exact H.
Qed.

(** Without trailing whitespace [trim] removes the leading whitespace. *)
Lemma trim_left (w a : cstring) :
  forallb is_ws w = true -> no_ws_ends a = true -> size (w ++ a) < npos ->
  trim (w ++ a) = Some a.
Proof.
  intros Hw Ha Hsz.
  pose proof (trim_shape w a [] Hw eq_refl Ha) as H.
  rewrite firstn_nil, !app_nil_r in H. apply H. exact Hsz.
Qed.

(** C4 at its failing input.  Two leading and two trailing blanks around
    [ab]: [find_first_not_of] is 2, [find_last_not_of] is 3, and
    [substr(2, 4)] keeps both trailing blanks. *)
Theorem trim_keeps_trailing_whitespace :
  find_first_not_of whitespace (str "  ab  ") = 2
  /\ find_last_not_of whitespace (str "  ab  ") = 3
  /\ trim (str "  ab  ") = Some (str "ab  ")
  /\ trim (str "  ab  ") <> Some (str "ab").
Proof. repeat split. discriminate. Qed.

Lemma strip_trailing : forall s,
  s <> [] -> is_ws (hd SPACE s) = false ->
  exists a w, s = a ++ w /\ forallb is_ws w = true /\ no_ws_ends a = true.
Proof.
  induction s as [|x r IH] using rev_ind; intros Hne Hh; [contradiction|].
  destruct (is_ws x) eqn:Hx.
  - destruct r as [|c r'].
    + cbn [app hd] in Hh. congruence.
    + destruct IH as (a & w & E & Hw & Ha); [discriminate | exact Hh |].
      exists a, (w ++ [x]). split; [rewrite E, app_assoc; reflexivity|].
      split; [|exact Ha].
      rewrite forallb_app, Hw. cbn [forallb andb]. rewrite Hx. reflexivity.
  - exists (r ++ [x]), []. split; [rewrite app_nil_r; reflexivity|].
    split; [reflexivity|]. unfold no_ws_ends.
    rewrite last_last, Hx, Hh. reflexivity.
Qed.

(** Every string with a non-whitespace character is leading whitespace, a
    core with non-whitespace ends, trailing whitespace. *)
Lemma ws_split : forall s,
  forallb is_ws s = false ->
  exists w1 a w2, s = w1 ++ a ++ w2 /\ forallb is_ws w1 = true
                  /\ forallb is_ws w2 = true /\ no_ws_ends a = true.
Proof.
  induction s as [|c r IH]; intros H; [discriminate H|].
  cbn [forallb] in H. destruct (is_ws c) eqn:Hc.
  - cbn [andb] in H. destruct (IH H) as (w1 & a & w2 & E & H1 & H2 & Ha).
    exists (c :: w1), a, w2. split; [rewrite E; reflexivity|].
    split; [cbn [forallb]; rewrite Hc, H1; reflexivity|]. auto.
  - destruct (strip_trailing (c :: r)) as (a & w & E & Hw & Ha);
      [discriminate | exact Hc |].
    exists [], a, w. auto.
Qed.

(** [trim] never throws, and its result is empty exactly on the strings
    made of whitespace. *)
Lemma trim_total s :
  size s < npos ->
  exists t, trim s = Some t /\ (forallb is_ws s = false -> t <> []).
Proof.
  intros Hsz. destruct (forallb is_ws s) eqn:E.
  - exists []. split; [apply trim_all_ws; exact E | discriminate].
  - destruct (ws_split s E) as (w1 & a & w2 & Es & H1 & H2 & Ha).
    exists (a ++ firstn (List.length w1) w2). split.
    + rewrite Es. apply trim_shape; try assumption. rewrite <- Es. exact Hsz.
    + intros _ Hn. apply app_eq_nil in Hn. destruct Hn as [Hn _].
      subst a. discriminate Ha.
Qed.

(** ** The map *)

Lemma str_compare_refl : forall a, str_compare a a = Eq.
Proof.
  induction a as [|x r IH]; [reflexivity|]. cbn [str_compare].
  rewrite N.compare_refl. exact IH.
Qed.

Lemma map_find_set_same k v : forall m, map_find k (map_set k v m) = Some v.
Proof.
  induction m as [|[k' v'] r IH]; cbn [map_set map_find].
  - rewrite str_compare_refl. reflexivity.
  - destruct (str_compare k k') eqn:E; cbn [map_find].
    + rewrite E. reflexivity.
    + rewrite str_compare_refl. reflexivity.
    + rewrite E. exact IH.
Qed.

(** ** [insert] *)

Lemma substr_whole s : size s < npos -> substr s 0 npos = Some s.
Proof.
  intros H. unfold substr. pose proof (size_nonneg s).
  destruct (size s <? 0) eqn:E; [apply Z.ltb_lt in E; lia|].
  f_equal. cbn [Z.to_nat skipn]. apply firstn_all2. unfold size in *. lia.
Qed.

(** A line without [=]: [find] returns [npos], which is [-1] as an [int];
    [substr(0, -1)] and [substr(0)] both take the whole line, so key and
    value are both the result of [trim] on the line. *)
Lemma insert_no_equals (s t : cstring) (st : setting) :
  ~ In EQUALS s -> size s < npos -> trim s = Some t ->
  to_int (find EQUALS s 0) = -1
  /\ insert s st
     = Some (if is_empty t then st else with_map st (map_set t t (map_ st))).
Proof.
  intros Hne Hsz Ht.
  assert (Hf : find EQUALS s 0 = npos)
    by (rewrite find_0; apply find_from_absent; exact Hne).
  split; [rewrite Hf; reflexivity|].
  unfold insert. rewrite Hf.
  change (to_size_t (to_int npos)) with npos.
  change (to_size_t (to_int (to_int npos + 1))) with 0.
  rewrite (substr_whole s Hsz), Ht.
  destruct t; reflexivity.
Qed.

(** C9 at its failing input.  The line [  abc ], two blanks before and one
    after, has no [=]: the split position is [-1], both [substr] calls take
    the whole line, and [trim] leaves one trailing blank on each copy.  The
    entry stored is [abc ] to [abc ], blank included; the trimmed line
    [abc] is not a key of the store. *)
Theorem insert_without_equals_keeps_blank :
  to_int (find EQUALS (str "  abc ") 0) = -1
  /\ substr (str "  abc ") 0 (to_size_t (-1)) = Some (str "  abc ")
  /\ substr (str "  abc ") (to_size_t (to_int (-1 + 1))) npos
     = Some (str "  abc ")
  /\ insert (str "  abc ") (new_setting 3)
     = Some (with_map (new_setting 3) [(str "abc ", str "abc ")])
  /\ map_find (str "abc") [(str "abc ", str "abc ")] = None
  /\ map_find (str "abc ") [(str "abc ", str "abc ")] = Some (str "abc ").
Proof. repeat split. Qed.

(** ** The getters *)

Lemma get_value_absent k st :
  map_find k (map_ st) = None -> get_value k st = Some (false, st).
Proof. intros H. unfold get_value. rewrite H. reflexivity. Qed.

(** On a key that is not in the store every getter leaves the object as it
    is; [get_int], [get_long], [get_longlong] and [get_cstr] return the
    default, [get_double] returns the default converted to [long]. *)
Lemma getters_absent atoi atol atoll strtod k st :
  map_find k (map_ st) = None ->
  (forall d, get_int atoi k d st = Some (d, st))
  /\ (forall d, get_long atol k d st = Some (d, st))
  /\ (forall d, get_longlong atoll k d st = Some (d, st))
  /\ (forall d, get_cstr k d st = Some (d, st))
  /\ (forall d, get_double strtod k d st = Some (double_to_long d, st)).
Proof.
  intros H. unfold get_int, get_long, get_longlong, get_cstr, get_double.
  rewrite (get_value_absent k st H). repeat split.
Qed.

Lemma double_to_long_floor (d : Q) (n : Z) :
  0 <= n -> (inject_Z n <= d)%Q -> (d < inject_Z (n + 1))%Q ->
  double_to_long d = n.
Proof.
  destruct d as [num den]. unfold Qle, Qlt, double_to_long. cbn.
  intros Hn H1 H2. rewrite Z.quot_div_nonneg by nia.
  symmetry. apply Z.div_unique with (r := num - n * Z.pos den); nia.
Qed.

Lemma store_double_built :
  insert (str "double = 3.1415926") (new_setting 3) = Some store_double.
Proof. reflexivity. Qed.

(** C6 at its failing input.  [get_double] is declared to return [long]:
    whatever double [strtod] returns for [3.1415926], a value between 3
    and 4, the caller receives the integer 3. *)
Theorem get_double_returns_long (strtod : cstring -> Q) :
  (inject_Z 3 <= strtod (str "3.1415926"))%Q ->
  (strtod (str "3.1415926") < inject_Z 4)%Q ->
  get_double strtod (str "double") 0 store_double
  = Some (3, with_reserve store_double (str "3.1415926")).
Proof.
  intros H1 H2. unfold get_double.
  change (get_value (str "double") store_double)
    with (Some (true, with_reserve store_double (str "3.1415926"))).
  cbn iota. f_equal. f_equal.
  change (c_str (reserve_ (with_reserve store_double (str "3.1415926"))))
    with (str "3.1415926").
  apply double_to_long_floor; [lia | exact H1 | exact H2].
Qed.

(** C8 at its failing input.  On an absent key [get_double] returns the
    default converted to [long]: for the default 0.5 it returns 0. *)
Theorem get_double_absent_default (strtod : cstring -> Q) :
  get_double strtod (str "missing") (1 # 2) (new_setting 3)
  = Some (0, new_setting 3)
  /\ ~ (inject_Z 0 == 1 # 2)%Q.
Proof. split; [reflexivity | discriminate]. Qed.

Lemma store_vector_built :
  inserts [str "vector = el1,el2 ,el3, el4"; str "spaced = el1, el2 ,el3"]
    (new_setting 3) = Some store_vector.
Proof. reflexivity. Qed.

(** C7 at its failing input.  The value of the specification,
    [el1,el2 ,el3, el4], splits into the four elements.  In
    [el1, el2 ,el3] the second segment has a blank on both sides and
    [trim] leaves the trailing one: the element returned is [el2 ] with
    its blank. *)
Theorem get_vector_keeps_trailing_blank :
  get_vector (str "vector") [] store_vector
  = Some (true, [str "el1"; str "el2"; str "el3"; str "el4"],
          with_reserve store_vector (str "el1,el2 ,el3, el4"))
  /\ get_vector (str "spaced") [] store_vector
     = Some (true, [str "el1"; str "el2 "; str "el3"],
             with_reserve store_vector (str "el1, el2 ,el3")).
Proof. split; reflexivity. Qed.

(** ** The order of the keys *)

Lemma str_compare_antisym : forall a b,
  str_compare a b = CompOpp (str_compare b a).
Proof.
  induction a as [|x a IH]; intros [|y b]; try reflexivity.
  cbn [str_compare]. rewrite (N.compare_antisym (N_of_ascii x)).
  destruct (N.compare (N_of_ascii x) (N_of_ascii y)); cbn [CompOpp];
    [apply IH | reflexivity | reflexivity].
Qed.

Lemma str_lt_gt a b : str_lt a b -> str_compare b a = Gt.
Proof.
  unfold str_lt. intros H. rewrite str_compare_antisym, H. reflexivity.
Qed.

Lemma str_gt_lt a b : str_compare a b = Gt -> str_lt b a.
Proof.
  unfold str_lt. intros H. rewrite str_compare_antisym, H. reflexivity.
Qed.

Lemma str_lt_trans : forall a b c, str_lt a b -> str_lt b c -> str_lt a c.
Proof.
  unfold str_lt.
  induction a as [|x a IH]; intros [|y b] [|z c] H1 H2;
    try discriminate; try reflexivity.
  cbn [str_compare] in *.
  destruct (N.compare_spec (N_of_ascii x) (N_of_ascii y)) as [E1 | L1 | G1];
    try discriminate;
    destruct (N.compare_spec (N_of_ascii y) (N_of_ascii z)) as [E2 | L2 | G2];
    try discriminate.
  - rewrite E1, E2, N.compare_refl. exact (IH b c H1 H2).
  - rewrite E1. apply N.compare_lt_iff in L2. rewrite L2. reflexivity.
  - rewrite <- E2. apply N.compare_lt_iff in L1. rewrite L1. reflexivity.
  - assert (L : (N_of_ascii x < N_of_ascii z)%N) by lia.
    apply N.compare_lt_iff in L. rewrite L. reflexivity.
Qed.

Lemma str_compare_eq : forall a b, str_compare a b = Eq -> a = b.
Proof.
  induction a as [|x a IH]; intros [|y b] H; try discriminate;
    [reflexivity|].
  cbn [str_compare] in H.
  destruct (N.compare_spec (N_of_ascii x) (N_of_ascii y)) as [E | L | G];
    try discriminate.
  f_equal; [|apply IH; exact H].
  rewrite <- (ascii_N_embedding x), <- (ascii_N_embedding y), E.
  reflexivity.
Qed.

Lemma map_set_Forall (P : cstring -> Prop) k v : forall m,
  P k -> Forall (fun e => P (fst e)) m ->
  Forall (fun e => P (fst e)) (map_set k v m).
Proof.
  induction m as [|[k' v'] r IH]; intros Hk Hm; cbn [map_set].
  - constructor; [exact Hk | constructor].
  - inversion Hm as [|e l He Hl]; subst.
    destruct (str_compare k k').
    + constructor; [exact He | exact Hl].
    + constructor; [exact Hk | exact Hm].
    + constructor; [exact He | apply IH; assumption].
Qed.

(** [map_[key] = value] keeps the keys strictly increasing. *)
Lemma map_set_ok k v : forall m, map_ok m -> map_ok (map_set k v m).
Proof.
  unfold map_ok.
  induction m as [|[k' v'] r IH]; intros H; cbn [map_set].
  - constructor; constructor.
  - inversion H as [|e l Hr Hf]; subst.
    destruct (str_compare k k') eqn:E.
    + constructor; [exact Hr | exact Hf].
    + constructor; [exact H|]. constructor; [exact E|].
      eapply Forall_impl; [|exact Hf]. intros e He. cbn [fst] in *.
      eapply str_lt_trans; [exact E | exact He].
    + constructor; [apply IH; exact Hr|].
      apply (map_set_Forall (fun x => str_lt k' x)); [|exact Hf].
      apply str_gt_lt. exact E.
Qed.

(** A key above all keys of the map is appended at the end. *)
Lemma map_set_append k v : forall m,
  Forall (fun e => str_lt (fst e) k) m -> map_set k v m = m ++ [(k, v)].
Proof.
  induction m as [|[k' v'] r IH]; intros H; [reflexivity|].
  inversion H as [|e l He Hl]; subst. cbn [map_set fst] in *.
  rewrite (str_lt_gt _ _ He), IH by exact Hl. reflexivity.
Qed.

Lemma sorted_app_below {A} (R : A -> A -> Prop) : forall a e r,
  StronglySorted R (a ++ e :: r) -> Forall (fun x => R x e) a.
Proof.
  induction a as [|x a IH]; intros e r H; [constructor|].
  cbn [app] in H. inversion H as [|y l Hs Hf]; subst.
  constructor.
  - rewrite Forall_forall in Hf. apply Hf. apply in_or_app. right. left.
    reflexivity.
  - eapply IH. exact Hs.
Qed.

(** Entering the entries of a sorted map one after the other rebuilds it. *)
Lemma map_rebuild : forall m acc,
  map_ok (acc ++ m) ->
  fold_left (fun a e => map_set (fst e) (snd e) a) m acc = acc ++ m.
Proof.
  induction m as [|[k v] r IH]; intros acc H; [rewrite app_nil_r; reflexivity|].
  cbn [fold_left fst snd].
  rewrite map_set_append by (exact (sorted_app_below _ _ _ _ H)).
  rewrite IH; rewrite <- app_assoc; [reflexivity | exact H].
Qed.

Lemma insert_level s st st' :
  insert s st = Some st' -> recursion_level_ st' = recursion_level_ st.
Proof.
  unfold insert. intros H.
  repeat match type of H with
         | match ?e with _ => _ end = _ => destruct e; try discriminate H
         | (if ?b then _ else _) = _ => destruct b
         end; injection H as <-; reflexivity.
Qed.

Lemma insert_ok s st st' :
  insert s st = Some st' -> map_ok (map_ st) -> map_ok (map_ st').
Proof.
  unfold insert. intros H Hok.
  repeat match type of H with
         | match ?e with _ => _ end = _ => destruct e; try discriminate H
         | (if ?b then _ else _) = _ => destruct b
         end; injection H as <-; [apply map_set_ok|]; exact Hok.
Qed.

(** Every store built by [operator<<] from a fresh object keeps its
    recursion level and has its keys strictly increasing. *)
Lemma inserts_invariant : forall lines st st',
  inserts lines st = Some st' -> map_ok (map_ st) ->
  recursion_level_ st' = recursion_level_ st /\ map_ok (map_ st').
Proof.
  induction lines as [|l r IH]; intros st st' H Hok.
  - injection H as <-. auto.
  - cbn [inserts] in H. destruct (insert l st) as [st1|] eqn:E;
      [|discriminate H].
    destruct (IH st1 st' H (insert_ok _ _ _ E Hok)) as [Hl Hm].
    split; [|exact Hm]. rewrite Hl. apply (insert_level _ _ _ E).
Qed.

(** ** [dump] and [read_from_file] *)

Lemma dump_entries : forall m text,
  fold_left dump_entry m text = text ++ List.concat (map entry_line m).
Proof.
  induction m as [|e r IH]; intros text; cbn [fold_left map List.concat].
  - rewrite app_nil_r. reflexivity.
  - rewrite IH. unfold dump_entry, entry_line, line_body.
    rewrite <- !app_assoc. reflexivity.
Qed.

Lemma absent_not_in ch s : absent ch s = true -> ~ In ch s.
Proof.
  unfold absent. intros H HI. apply negb_true_iff in H.
  assert (E : existsb (Ascii.eqb ch) s = true); [|congruence].
  apply existsb_exists. exists ch. split; [exact HI | apply Ascii.eqb_refl].
Qed.

Lemma getlines_line : forall l rest cur,
  ~ In LF l -> getlines (l ++ LF :: rest) cur = (cur ++ l) :: getlines rest [].
Proof.
  induction l as [|c r IH]; intros rest cur H.
  - cbn. rewrite app_nil_r. reflexivity.
  - cbn [app getlines]. destruct (Ascii.eqb c LF) eqn:E.
    + apply Ascii.eqb_eq in E. subst c. exfalso. apply H. left. reflexivity.
    + rewrite IH by (intros HI; apply H; right; exact HI).
      rewrite <- app_assoc. reflexivity.
Qed.

Lemma getlines_dump : forall m,
  Forall (fun e => ~ In LF (line_body e)) m ->
  getlines (List.concat (map entry_line m)) [] = map line_body m.
Proof.
  induction m as [|e r IH]; intros H; [reflexivity|].
  inversion H as [|x l He Hl]; subst. cbn [map List.concat].
  unfold entry_line at 1. rewrite <- app_assoc. cbn [app].
  rewrite getlines_line by exact He. cbn [app]. rewrite IH by exact Hl.
  reflexivity.
Qed.

Lemma find_from_app_absent ch : forall s t i,
  ~ In ch s -> find_from ch (s ++ t) i = find_from ch t (i + size s).
Proof.
  induction s as [|c r IH]; intros t i H.
  - cbn [app]. f_equal. unfold size. cbn. lia.
  - cbn [app find_from]. destruct (Ascii.eqb c ch) eqn:E.
    + apply Ascii.eqb_eq in E. subst c. exfalso. apply H. left. reflexivity.
    + rewrite IH by (intros HI; apply H; right; exact HI).
      f_equal. rewrite size_cons. lia.
Qed.

Lemma substr_prefix a b : substr (a ++ b) 0 (size a) = Some a.
Proof.
  unfold substr. pose proof (size_nonneg (a ++ b)) as H.
  destruct (size (a ++ b) <? 0) eqn:E; [apply Z.ltb_lt in E; lia|].
  f_equal. cbn [Z.to_nat skipn]. rewrite size_app.
  pose proof (size_nonneg b).
  replace (Z.to_nat _) with (List.length a + 0)%nat by (unfold size in *; lia).
  rewrite firstn_app_all. cbn [firstn]. apply app_nil_r.
Qed.

Lemma substr_suffix a b :
  size (a ++ b) < npos -> substr (a ++ b) (size a) npos = Some b.
Proof.
  intros Hsz. unfold substr. rewrite size_app in *.
  pose proof (size_nonneg a). pose proof (size_nonneg b).
  destruct (size a + size b <? size a) eqn:E; [apply Z.ltb_lt in E; lia|].
  f_equal.
  replace (Z.to_nat (size a)) with (List.length a) by (unfold size; lia).
  rewrite skipn_app, skipn_all, Nat.sub_diag. cbn [skipn app].
  apply firstn_all2. unfold size in *. lia.
Qed.

Lemma no_ws_ends_nonempty a : no_ws_ends a = true -> a <> [].
Proof. intros H E. subst a. discriminate H. Qed.

Lemma last_app_right {A} (d : A) : forall a b,
  b <> [] -> last (a ++ b) d = last b d.
Proof.
  induction a as [|x a IH]; intros b Hb; [reflexivity|].
  cbn [app]. specialize (IH b Hb).
  destruct (a ++ b) eqn:E.
  - apply app_eq_nil in E. destruct E as [_ E]. contradiction.
  - cbn [last]. cbn [last] in IH. exact IH.
Qed.

Lemma no_ws_ends_app a b :
  a <> [] -> b <> [] ->
  is_ws (hd SPACE a) = false -> is_ws (last b SPACE) = false ->
  no_ws_ends (a ++ b) = true.
Proof.
  intros Ha Hb H1 H2. unfold no_ws_ends.
  destruct a as [|x a']; [contradiction|]. cbn [app hd]. cbn [hd] in H1.
  rewrite H1. cbn [negb andb].
  change (x :: a' ++ b) with ((x :: a') ++ b).
  rewrite last_app_right by exact Hb. rewrite H2. reflexivity.
Qed.

Lemma no_ws_ends_hd a : no_ws_ends a = true -> is_ws (hd SPACE a) = false.
Proof.
  unfold no_ws_ends. intros H. apply andb_prop in H. destruct H as [H _].
  apply negb_true_iff in H. exact H.
Qed.

Lemma no_ws_ends_last a :
  no_ws_ends a = true -> is_ws (last a SPACE) = false.
Proof.
  unfold no_ws_ends. intros H. apply andb_prop in H. destruct H as [_ H].
  apply negb_true_iff in H. exact H.
Qed.

Lemma portable_facts (k v : cstring) :
  portable (k, v) = true ->
  no_ws_ends k = true /\ ~ In EQUALS k /\ ~ In LF k
  /\ Ascii.eqb (hd NUL k) HASH = false
  /\ (v = [] \/ no_ws_ends v = true) /\ ~ In LF v
  /\ size k + size v + 4 < two31.
Proof.
  unfold portable, portable_key, portable_value. cbn [fst snd]. intros H.
  apply andb_prop in H. destruct H as [H Hsz].
  apply andb_prop in H. destruct H as [Hk Hv].
  apply andb_prop in Hk. destruct Hk as [Hk Hh].
  apply andb_prop in Hk. destruct Hk as [Hk Hl].
  apply andb_prop in Hk. destruct Hk as [Hk He].
  apply andb_prop in Hv. destruct Hv as [Hv Hvl].
  split; [exact Hk|].
  split; [apply absent_not_in; exact He|].
  split; [apply absent_not_in; exact Hl|].
  split; [apply negb_true_iff; exact Hh|].
  split.
  - apply orb_prop in Hv. destruct Hv as [Hv | Hv]; [left | right; exact Hv].
    destruct v; [reflexivity | discriminate Hv].
  - split; [apply absent_not_in; exact Hvl | apply Z.ltb_lt; exact Hsz].
Qed.

Lemma trim_value_field (v : cstring) :
  v = [] \/ no_ws_ends v = true -> size v + 1 < npos ->
  trim (value_field v) = Some v.
Proof.
  intros [E | H] Hsz.
  - subst v. reflexivity.
  - unfold value_field. pose proof (no_ws_ends_nonempty v H) as Hn.
    destruct v as [|x r]; [contradiction|]. cbn [is_empty].
    apply (trim_left [SPACE] (x :: r)); [reflexivity | exact H |].
    rewrite size_app. change (size [SPACE]) with 1. lia.
Qed.

Lemma trim_line_body (k v : cstring) :
  no_ws_ends k = true -> v = [] \/ no_ws_ends v = true ->
  size k + size v + 4 < two31 ->
  trim (line_body (k, v)) = Some (trimmed_line (k, v)).
Proof.
  intros Hk Hv Hsz. unfold line_body, trimmed_line, value_field.
  cbn [fst snd]. pose proof (no_ws_ends_nonempty k Hk) as Hkn.
  pose proof (size_nonneg k). pose proof (size_nonneg v).
  destruct Hv as [E | Hv].
  - subst v. cbn [is_empty]. rewrite !app_nil_r.
    replace (k ++ [SPACE; EQUALS; SPACE])
      with ((k ++ [SPACE; EQUALS]) ++ [SPACE])
      by (rewrite <- app_assoc; reflexivity).
    apply trim_right; [reflexivity | |].
    + apply no_ws_ends_app; [exact Hkn | discriminate | | reflexivity].
      apply no_ws_ends_hd. exact Hk.
    + rewrite !size_app. change (size [SPACE; EQUALS]) with 2.
      change (size [SPACE]) with 1. unfold two31, npos in *. lia.
  - pose proof (no_ws_ends_nonempty v Hv) as Hvn.
    destruct v as [|x r]; [contradiction|]. cbn [is_empty].
    replace ((k ++ [SPACE; EQUALS]) ++ SPACE :: x :: r)
      with (k ++ [SPACE; EQUALS; SPACE] ++ x :: r)
      by (rewrite <- app_assoc; reflexivity).
    rewrite <- (app_nil_r (k ++ [SPACE; EQUALS; SPACE] ++ x :: r)) at 1.
    apply trim_right; [reflexivity | |].
    + apply no_ws_ends_app; [exact Hkn | discriminate | |].
      * apply no_ws_ends_hd. exact Hk.
      * rewrite last_app_right by discriminate.
        apply no_ws_ends_last. exact Hv.
    + rewrite app_nil_r, !size_app.
      change (size [SPACE; EQUALS; SPACE]) with 3.
      unfold two31, npos in *. lia.
Qed.

Lemma to_int_small z : 0 <= z < two31 -> to_int z = z.
Proof.
  intros H. unfold to_int. rewrite Z.mod_small; unfold two31, two32 in *; lia.
Qed.

Lemma to_size_t_small z : 0 <= z < two31 -> to_size_t z = z.
Proof.
  intros H. unfold to_size_t. apply Z.mod_small.
  unfold two31, two64 in *. lia.
Qed.

Lemma insert_trimmed_line (k v : cstring) st :
  no_ws_ends k = true -> ~ In EQUALS k ->
  v = [] \/ no_ws_ends v = true ->
  size k + size v + 4 < two31 ->
  insert (trimmed_line (k, v)) st
  = Some (with_map st (map_set k v (map_ st))).
Proof.
  intros Hk He Hv Hsz. unfold trimmed_line. cbn [fst snd].
  pose proof (no_ws_ends_nonempty k Hk) as Hkn.
  pose proof (size_nonneg k). pose proof (size_nonneg v).
  set (vf := value_field v).
  assert (Hvf : 0 <= size vf <= size v + 1).
  { unfold vf, value_field. destruct v; cbn [is_empty].
    - unfold size. cbn. lia.
    - rewrite (size_cons SPACE). lia. }
  assert (Hf : find EQUALS ((k ++ [SPACE; EQUALS]) ++ vf) 0 = size k + 1).
  { rewrite find_0, <- app_assoc, find_from_app_absent by exact He.
    cbn [app find_from]. change (Ascii.eqb SPACE EQUALS) with false.
    change (Ascii.eqb EQUALS EQUALS) with true. cbn iota. lia. }
  unfold insert. rewrite Hf.
  rewrite !to_int_small by (rewrite ?to_int_small; lia).
  rewrite !to_size_t_small by lia.
  replace ((k ++ [SPACE; EQUALS]) ++ vf)
    with ((k ++ [SPACE]) ++ EQUALS :: vf) at 1
    by (rewrite <- !app_assoc; reflexivity).
  replace (size k + 1) with (size (k ++ [SPACE]))
    by (rewrite size_app; reflexivity).
  rewrite substr_prefix.
  rewrite (trim_right k [SPACE] eq_refl Hk)
    by (rewrite size_app; change (size [SPACE]) with 1;
        unfold two31, npos in *; lia).
  replace (size (k ++ [SPACE]) + 1) with (size (k ++ [SPACE; EQUALS]))
    by (rewrite !size_app; change (size [SPACE; EQUALS]) with 2;
        change (size [SPACE]) with 1; lia).
  rewrite substr_suffix
    by (rewrite !size_app; change (size [SPACE; EQUALS]) with 2;
        unfold two31, npos in *; lia).
  unfold vf. rewrite trim_value_field
    by (try exact Hv; unfold two31, npos in *; lia).
  destruct k; [contradiction|]. reflexivity.
Qed.

Lemma load_line_entry (k v : cstring) st :
  portable (k, v) = true ->
  load_line (line_body (k, v)) st
  = Some (with_map st (map_set k v (map_ st))).
Proof.
  intros Hp.
  destruct (portable_facts k v Hp) as (Hk & He & _ & Hh & Hv & _ & Hsz).
  unfold load_line. rewrite trim_line_body by assumption.
  pose proof (no_ws_ends_nonempty k Hk) as Hkn.
  assert (E : is_empty (trimmed_line (k, v)) = false
              /\ hd NUL (trimmed_line (k, v)) = hd NUL k).
  { unfold trimmed_line. cbn [fst snd].
    destruct k; [contradiction|]. split; reflexivity. }
  destruct E as [E1 E2]. rewrite E1, E2, Hh. cbn [negb andb].
  apply insert_trimmed_line; assumption.
Qed.

Lemma load_lines_entries : forall m st,
  forallb portable m = true ->
  load_lines (map line_body m) st
  = Some (with_map st
            (fold_left (fun a e => map_set (fst e) (snd e) a) m (map_ st))).
Proof.
  induction m as [|[k v] r IH]; intros st H.
  - cbn. destruct st; reflexivity.
  - cbn [forallb] in H. apply andb_prop in H. destruct H as [Hp Hr].
    cbn [map load_lines]. rewrite (load_line_entry k v st Hp).
    rewrite IH by exact Hr. reflexivity.
Qed.

Lemma portable_no_LF : forall m,
  forallb portable m = true -> Forall (fun e => ~ In LF (line_body e)) m.
Proof.
  induction m as [|[k v] r IH]; intros H; [constructor|].
  cbn [forallb] in H. apply andb_prop in H. destruct H as [Hp Hr].
  constructor; [|apply IH; exact Hr].
  destruct (portable_facts k v Hp) as (_ & _ & Hk & _ & _ & Hv & _).
  unfold line_body. cbn [fst snd]. intros HI.
  apply in_app_or in HI. destruct HI as [HI | HI]; [exact (Hk HI)|].
  apply in_app_or in HI. destruct HI as [HI | HI]; [|exact (Hv HI)].
  destruct HI as [HI | [HI | [HI | []]]]; discriminate HI.
Qed.

Lemma resolve_ext K st st' :
  map_ st' = map_ st -> recursion_level_ st' = recursion_level_ st ->
  resolve K st' = resolve K st.
Proof.
  intros Hm Hl. unfold resolve, get_value. rewrite Hm, Hl.
  destruct (map_find K (map_ st)); [|reflexivity].
  destruct (parse_recursive _ _ _); reflexivity.
Qed.

(** C5, as the code has it.  For every store built by [operator<<]: the
    keys are strictly increasing and [dump] writes the line [key = value]
    followed by a line feed for each entry in that order, with the stored
    value as it is.  When moreover every entry is [portable], loading the
    dump into a fresh object of the same recursion level succeeds and gives
    the same map, so that every key resolves to the same value in both. *)
Theorem dump_reload (level : nat) (lines : list cstring) (st : setting) :
  inserts lines (new_setting level) = Some st ->
  map_ok (map_ st)
  /\ dump st = List.concat (map entry_line (map_ st))
  /\ (forallb portable (map_ st) = true ->
      exists st',
        new_setting_from_file (Some (dump st)) level = Some st'
        /\ map_ st' = map_ st
        /\ forall K, resolve K st' = resolve K st).
Proof.
  intros Hb.
  destruct (inserts_invariant lines _ _ Hb) as [Hl Hok];
    [constructor|]. cbn [new_setting recursion_level_] in Hl.
  assert (Hd : dump st = List.concat (map entry_line (map_ st)))
    by (unfold dump; rewrite dump_entries; reflexivity).
  split; [exact Hok|]. split; [exact Hd|]. intros Hp.
  exists (with_map (new_setting level) (map_ st)).
  split; [|split; [reflexivity|]].
  - unfold new_setting_from_file, read_from_file. rewrite Hd.
    rewrite getlines_dump by (apply portable_no_LF; exact Hp).
    rewrite load_lines_entries by exact Hp. cbn [new_setting map_].
    rewrite map_rebuild by exact Hok. reflexivity.
  - intros K. apply resolve_ext; [reflexivity | cbn; congruence].
Qed.

Lemma store_hash_built :
  insert (str "#k = v") (new_setting 3) = Some store_hash.
Proof. reflexivity. Qed.

(** C5 as stated fails: [cfg << "#k = v"] stores the key [#k]; the dump is
    the line [#k = v], which [read_from_file] skips as a comment; the key
    resolves to [v] in the store and is absent from the reloaded one. *)
Lemma dump_reload_loses_hash_key :
  inserts [str "#k = v"] (new_setting 3) = Some store_hash
  /\ dump store_hash = str "#k = v" ++ [LF]
  /\ new_setting_from_file (Some (dump store_hash)) 3 = Some (new_setting 3)
  /\ resolve (str "#k") store_hash = Some (Some (str "v"))
  /\ resolve (str "#k") (new_setting 3) = Some None.
Proof. repeat split. Qed.

(** ** [get_vector] *)

Lemma segments_no_comma : forall s cur,
  ~ In COMMA s -> segments s cur = [cur ++ s].
Proof.
  induction s as [|c r IH]; intros cur H.
  - cbn. rewrite app_nil_r. reflexivity.
  - cbn [segments]. destruct (Ascii.eqb c COMMA) eqn:E.
    + apply Ascii.eqb_eq in E. subst c. exfalso. apply H. left. reflexivity.
    + rewrite IH by (intros HI; apply H; right; exact HI).
      rewrite <- app_assoc. reflexivity.
Qed.

Lemma segments_comma : forall seg rest cur,
  ~ In COMMA seg ->
  segments (seg ++ COMMA :: rest) cur = (cur ++ seg) :: segments rest [].
Proof.
  induction seg as [|c r IH]; intros rest cur H.
  - cbn. rewrite app_nil_r. reflexivity.
  - cbn [app segments]. destruct (Ascii.eqb c COMMA) eqn:E.
    + apply Ascii.eqb_eq in E. subst c. exfalso. apply H. left. reflexivity.
    + rewrite IH by (intros HI; apply H; right; exact HI).
      rewrite <- app_assoc. reflexivity.
Qed.

Lemma first_comma : forall s : cstring,
  ~ In COMMA s
  \/ exists seg rest, s = seg ++ COMMA :: rest /\ ~ In COMMA seg.
Proof.
  induction s as [|c r IH]; [left; intros []|].
  destruct (Ascii.eqb c COMMA) eqn:E.
  - apply Ascii.eqb_eq in E. subst c. right. exists [], r.
    split; [reflexivity | intros []].
  - apply Ascii.eqb_neq in E. destruct IH as [H | (seg & rest & Hs & Hn)].
    + left. intros [HI | HI]; [congruence | exact (H HI)].
    + right. exists (c :: seg), rest. split; [rewrite Hs; reflexivity|].
      intros [HI | HI]; [congruence | exact (Hn HI)].
Qed.

Lemma find_at (ch : ascii) (pre suf : cstring) :
  find ch (pre ++ suf) (size pre) = find_from ch suf (size pre).
Proof.
  unfold find. rewrite size_app. pose proof (size_nonneg suf).
  destruct (size pre + size suf <? size pre) eqn:E;
    [apply Z.ltb_lt in E; lia|].
  replace (Z.to_nat (size pre)) with (List.length pre) by (unfold size; lia).
  rewrite skipn_app, skipn_all, Nat.sub_diag. reflexivity.
Qed.

Lemma substr_middle (pre seg rest : cstring) (count : Z) :
  count = size seg \/ (rest = [] /\ size seg <= count) ->
  substr (pre ++ seg ++ rest) (size pre) count = Some seg.
Proof.
  intros Hc. unfold substr. rewrite !size_app.
  pose proof (size_nonneg seg). pose proof (size_nonneg rest).
  destruct (size pre + (size seg + size rest) <? size pre) eqn:E;
    [apply Z.ltb_lt in E; lia|].
  f_equal.
  replace (Z.to_nat (size pre)) with (List.length pre) by (unfold size; lia).
  rewrite skipn_app, skipn_all, Nat.sub_diag. cbn [skipn app].
  destruct Hc as [Hc | [Hr Hc]].
  - replace (Z.to_nat _) with (List.length seg + 0)%nat
      by (unfold size in *; lia).
    rewrite firstn_app_all. cbn [firstn]. apply app_nil_r.
  - subst rest. rewrite app_nil_r. apply firstn_all2.
    unfold size in *. cbn [List.length] in *. lia.
Qed.

Lemma get_vector_loop_S fuel reserve pos vec :
  get_vector_loop (S fuel) reserve pos vec =
  if pos <? npos then
    let break_pos := find COMMA reserve pos in
    let break_pos := if break_pos =? npos then npos - 1 else break_pos in
    seg <- substr reserve pos (to_size_t (break_pos - pos)) ;;
    s <- trim seg ;;
    get_vector_loop fuel reserve (to_size_t (break_pos + 1))
      (if negb (is_empty s) then vec ++ [s] else vec)
  else Some vec.
Proof. reflexivity. Qed.

(** The loop of [get_vector], started at the end of [pre], takes the
    segments of the rest of the string one by one, and the fuel handed out
    by [get_vector] is enough. *)
Lemma get_vector_loop_segments : forall n suf pre vec fuel,
  (List.length suf <= n)%nat -> (List.length suf + 2 <= fuel)%nat ->
  size (pre ++ suf) < npos - 1 ->
  get_vector_loop fuel (pre ++ suf) (size pre) vec
  = collect (segments suf []) vec.
Proof.
  induction n as [|n IH]; intros suf pre vec fuel Hn Hf Hsz;
    rewrite size_app in Hsz;
    pose proof (size_nonneg pre); pose proof (size_nonneg suf);
    (destruct fuel as [|[|f]]; [lia | lia |]);
    rewrite get_vector_loop_S; cbn zeta;
    (destruct (size pre <? npos) eqn:E; [|apply Z.ltb_ge in E; lia]);
    rewrite find_at;
    destruct (first_comma suf) as [Hno | (seg & rest & Hs & Hno)].
  - rewrite (find_from_absent COMMA suf _ Hno).
    change (npos =? npos) with true. cbn iota.
    rewrite <- (app_nil_r suf) at 1.
    rewrite substr_middle
      by (right; split; [reflexivity|];
          unfold to_size_t; rewrite Z.mod_small;
          unfold npos, two64 in *; lia).
    rewrite segments_no_comma by exact Hno. cbn [app collect].
    destruct (trim suf); [|reflexivity].
    change (to_size_t (npos - 1 + 1)) with npos.
    rewrite get_vector_loop_S. change (npos <? npos) with false.
    reflexivity.
  - subst suf. destruct seg; discriminate || (cbn in Hn; lia).
  - rewrite (find_from_absent COMMA suf _ Hno).
    change (npos =? npos) with true. cbn iota.
    rewrite <- (app_nil_r suf) at 1.
    rewrite substr_middle
      by (right; split; [reflexivity|];
          unfold to_size_t; rewrite Z.mod_small;
          unfold npos, two64 in *; lia).
    rewrite segments_no_comma by exact Hno. cbn [app collect].
    destruct (trim suf); [|reflexivity].
    change (to_size_t (npos - 1 + 1)) with npos.
    rewrite get_vector_loop_S. change (npos <? npos) with false.
    reflexivity.
  - subst suf. rewrite size_app, size_cons in Hsz.
    pose proof (size_nonneg seg). pose proof (size_nonneg rest).
    rewrite find_from_app_absent by exact Hno.
    cbn [find_from]. change (Ascii.eqb COMMA COMMA) with true. cbn iota.
    destruct (size pre + size seg =? npos) eqn:E2;
      [apply Z.eqb_eq in E2; lia|].
    rewrite substr_middle
      by (left; unfold to_size_t; rewrite Z.mod_small;
          unfold npos, two64 in *; lia).
    rewrite segments_comma by exact Hno. cbn [app collect].
    destruct (trim seg) as [t|]; [|reflexivity].
    unfold to_size_t. rewrite Z.mod_small by (unfold npos, two64 in *; lia).
    replace (pre ++ seg ++ COMMA :: rest)
      with ((pre ++ seg ++ [COMMA]) ++ rest)
      by (rewrite <- !app_assoc; reflexivity).
    replace (size pre + size seg + 1) with (size (pre ++ seg ++ [COMMA]))
      by (rewrite !size_app; change (size [COMMA]) with 1; lia).
    rewrite length_app in Hn, Hf. cbn [List.length] in Hn, Hf.
    apply IH; [lia | lia |].
    rewrite !size_app. change (size [COMMA]) with 1. lia.
Qed.

(** What [get_vector] returns on a key of the store: the resolved value is
    cut at its commas, [trim] is applied to each segment, and the non-empty
    results are appended to the vector in order. *)
Lemma get_vector_segments k vec st raw r :
  map_find k (map_ st) = Some raw ->
  parse_recursive (recursion_level_ st) (map_ st) raw = Some r ->
  size r < npos - 1 ->
  get_vector k vec st
  = (v <- collect (segments r []) vec ;; Some (true, v, with_reserve st r)).
Proof.
  intros Hk Hr Hsz. unfold get_vector, get_value. rewrite Hk, Hr.
  cbn [with_reserve reserve_].
  rewrite (get_vector_loop_segments (List.length r) r [] vec);
    [reflexivity | lia | lia | exact Hsz].
Qed.

(** * Instances *)

(** A character does not occur in a string literal. *)
Ltac not_in_literal :=
  let H := fresh "H" in
  intros H; repeat (destruct H as [H | H]; [discriminate H|]); exact H.

Lemma escape_single_pass_witness :
  parse_once store_b ((str "a" ++ [BACKSLASH; DOLLAR]) ++ str "b")
  = Some (scan store_b
            {| state := PS_UNKNOW; brace_open := false; key := [];
               out := str "a$" |} (str "b"))
  /\ parse_recursive 1 store_b (BACKSLASH :: DOLLAR :: str "b")
     = Some (DOLLAR :: str "b").
Proof.
  destruct (escape_single_pass store_b (str "a") (str "b") DOLLAR)
    as [H1 H2].
  - not_in_literal.
  - discriminate.
  - discriminate.
  - split; [exact H1|]. apply (H2 (str "b")). reflexivity.
Defined.

Lemma parse_recursive_passes_witness :
  parse_recursive 3 store_b (str "plain") = Some (str "plain")
  /\ parse_recursive 3 store_b (str "$b")
     = Some (Nat.iter 3 (pass store_b) (str "$b")).
Proof.
  split.
  - destruct (parse_recursive_passes 3 store_b (str "plain")) as (_ & H1 & _);
      [reflexivity|].
    apply H1. not_in_literal.
  - destruct (parse_recursive_passes 3 store_b (str "$b")) as (_ & _ & H2);
      [reflexivity|].
    apply H2. left. reflexivity.
Defined.

Lemma dump_reload_witness :
  map_ok (map_ store_ab)
  /\ dump store_ab = List.concat (map entry_line (map_ store_ab))
  /\ exists st',
       new_setting_from_file (Some (dump store_ab)) 3 = Some st'
       /\ map_ st' = map_ store_ab
       /\ forall K, resolve K st' = resolve K store_ab.
Proof.
  destruct (dump_reload 3 [str "b = 1"; str "a = $b"] store_ab)
    as (H1 & H2 & H3); [reflexivity|].
  split; [exact H1|]. split; [exact H2|]. apply H3. reflexivity.
Defined.

Lemma get_double_returns_long_witness :
  get_double strtod_decimal (str "double") 0 store_double
  = Some (3, with_reserve store_double (str "3.1415926")).
Proof.
  apply (get_double_returns_long strtod_decimal).
  - discriminate.
  - reflexivity.
Defined.

Lemma brace_flag_never_reset_witness :
  parse_once store_y
    (([] ++ DOLLAR :: LBRACE :: str "y} ") ++ (DOLLAR :: str "y" ++ [RBRACE])
     ++ str "!")
  = Some (str "Y Y!")
  /\ parse_once store_y ([] ++ (DOLLAR :: str "y" ++ [RBRACE]) ++ str "!")
     = Some (str "Y}!").
Proof.
  destruct (brace_flag_never_reset store_y [] (str "y} ") (str "y") (str "!"))
    as (_ & H1 & H2).
  - not_in_literal.
  - not_in_literal.
  - discriminate.
  - discriminate.
  - discriminate.
  - reflexivity.
  - split; [exact H1|].
    apply (H2 []); [intros [] | discriminate | reflexivity].
Defined.

(** * Further properties of the scanner *)

Lemma plain_no_NUL (s : cstring) : forallb plain_char s = true -> ~ In NUL s.
Proof.
  intros H HI. rewrite forallb_forall in H. specialize (H NUL HI).
  discriminate H.
Qed.

Lemma run_plain m : forall s c,
  state c = PS_UNKNOW -> forallb plain_char s = true ->
  run m c s =
  {| state := PS_UNKNOW; brace_open := brace_open c; key := key c;
     out := out c ++ s |}.
Proof.
  induction s as [|a r IH]; intros c Hs Hp.
  - cbn. rewrite app_nil_r. destruct c; cbn in *; subst; reflexivity.
  - cbn [forallb] in Hp. apply andb_prop in Hp. destruct Hp as [Ha Hr].
    rewrite run_cons, (feed_plain m c a Hs Ha), IH by auto.
    cbn. rewrite <- app_assoc. reflexivity.
Qed.

Lemma feed_plain_after m c ch :
  state c <> PS_FETCHKEY -> state c <> PS_DOLLAR -> plain_char ch = true ->
  feed m c ch =
  {| state := PS_UNKNOW; brace_open := brace_open c; key := key c;
     out := out c ++ [ch] |}.
Proof.
  intros H1 H2 Hp. unfold plain_char in Hp.
  apply andb_prop in Hp. destruct Hp as [Hp Hd].
  apply andb_prop in Hp. destruct Hp as [H0 Hb].
  apply negb_true_iff in H0, Hb, Hd.
  unfold feed, body, next_state. rewrite H0, Hb, Hd.
  destruct (state c); try contradiction; reflexivity.
Qed.

Lemma scan_plain_after m c s :
  state c <> PS_FETCHKEY -> state c <> PS_DOLLAR ->
  forallb plain_char s = true -> scan m c s = out c ++ s.
Proof.
  intros H1 H2 Hp. destruct s as [|a r].
  - cbn [scan]. unfold finish, body, next_state. cbn.
    rewrite app_nil_r. destruct (state c); try contradiction; reflexivity.
  - cbn [forallb] in Hp. apply andb_prop in Hp. destruct Hp as [Ha Hr].
    cbn [scan].
    assert (H0 : Ascii.eqb a NUL = false).
    { unfold plain_char in Ha. destruct (Ascii.eqb a NUL); [discriminate|].
      reflexivity. }
    rewrite H0, (feed_plain_after m c a H1 H2 Ha).
    rewrite scan_plain by (reflexivity || exact Hr).
    cbn. rewrite <- app_assoc. reflexivity.
Qed.

Lemma scan_NUL m : forall s c t, scan m c (s ++ NUL :: t) = scan m c s.
Proof.
  induction s as [|a r IH]; intros c t; [reflexivity|].
  cbn [app scan]. destruct (Ascii.eqb a NUL); [reflexivity | apply IH].
Qed.

(** X1.  The loop of [parse_once] ends on every input: it has returned
    after [2 * size + 1] executions of its body (a character is looked at
    at most twice), and allowing more executions changes nothing. *)
Theorem parse_once_terminates (m : item_type) (s : cstring) (fuel : nat) :
  (2 * List.length s + 1 <= fuel)%nat ->
  parse_once m s <> None
  /\ parse_loop fuel m s scanner_init 0 = parse_once m s.
Proof.
  intros H. rewrite parse_once_pass. split; [discriminate|].
  exact (parse_loop_scan m s [] scanner_init fuel H).
Qed.

(** X2.  A string without NUL, backslash and dollar sign comes out of a
    pass as it went in, whatever the store holds. *)
Theorem parse_once_plain (m : item_type) (s : cstring) :
  forallb plain_char s = true -> parse_once m s = Some s.
Proof.
  intros H. rewrite parse_once_pass. unfold pass.
  rewrite scan_plain by (reflexivity || exact H). reflexivity.
Qed.

(** X3.  [parse_once] reads its argument through [c_str()]: the first NUL
    character and everything after it are ignored. *)
Theorem parse_once_stops_at_NUL (m : item_type) (s t : cstring) :
  parse_once m (s ++ NUL :: t) = parse_once m s.
Proof.
  rewrite !parse_once_pass. unfold pass. rewrite scan_NUL. reflexivity.
Qed.

(** X4.  A bare reference in plain surroundings: in [pre ++ "$" ++ b ++
    rest], with [pre] and [rest] free of NUL, backslash and dollar sign, [b]
    an identifier and [rest] not going on with an identifier character or
    an opening brace, the reference is replaced by the stored value of [b]
    as it is (not scanned again), or by nothing when [b] is not a key. *)
Theorem parse_once_bare_reference (m : item_type) (pre b rest : cstring) :
  forallb plain_char pre = true -> b <> [] ->
  forallb check_identifier b = true ->
  forallb plain_char rest = true -> ends_identifier rest = true ->
  parse_once m (pre ++ (DOLLAR :: b) ++ rest)
  = Some (pre ++ lookup_text m b ++ rest).
Proof.
  intros Hpre Hne Hb Hrest Hend. rewrite parse_once_pass. f_equal.
  rewrite pass_split by (apply plain_no_NUL; exact Hpre).
  rewrite run_plain by (reflexivity || exact Hpre).
  cbn [scanner_init brace_open key out]. change ([] ++ pre) with pre.
  destruct rest as [|t r].
  - rewrite scan_run
      by (intros [H | H]; [discriminate H | exact (ident_no_NUL b Hb H)]).
    cbn [scan]. rewrite finish_reference by (assumption || discriminate).
    cbn [out key app]. rewrite app_nil_r. reflexivity.
  - cbn [forallb] in Hrest. apply andb_prop in Hrest.
    destruct Hrest as [Ht Hr]. cbn [ends_identifier] in Hend.
    apply andb_prop in Hend. destruct Hend as [Hi Hl].
    apply negb_true_iff in Hi, Hl.
    assert (Hp := Ht). unfold plain_char in Hp.
    apply andb_prop in Hp. destruct Hp as [Hp Hd].
    apply andb_prop in Hp. destruct Hp as [H0 Hbs].
    apply negb_true_iff in H0, Hbs, Hd.
    apply Ascii.eqb_neq in H0, Hbs, Hd, Hl.
    replace ((DOLLAR :: b) ++ t :: r) with (((DOLLAR :: b) ++ [t]) ++ r)
      by (rewrite <- app_assoc; reflexivity).
    rewrite scan_run.
    2:{ intros H. apply in_app_or in H. destruct H as [[H | H] | [H | []]].
        - discriminate H.
        - exact (ident_no_NUL b Hb H).
        - congruence. }
    rewrite run_reference_terminated
      by (assumption || discriminate || reflexivity).
    rewrite scan_plain by (reflexivity || exact Hr).
    cbn [out key app]. rewrite <- !app_assoc. reflexivity.
Qed.

(** X5.  A brace reference in plain surroundings: in [pre ++ "${" ++ b ++
    "}" ++ rest] the reference, braces included, is replaced by the stored
    value of [b] or by nothing, and [rest] is copied even when it starts
    with an identifier character. *)
Theorem parse_once_brace_reference (m : item_type) (pre b rest : cstring) :
  forallb plain_char pre = true -> forallb check_identifier b = true ->
  forallb plain_char rest = true ->
  parse_once m (pre ++ (DOLLAR :: LBRACE :: b ++ [RBRACE]) ++ rest)
  = Some (pre ++ lookup_text m b ++ rest).
Proof.
  intros Hpre Hb Hrest. rewrite parse_once_pass. f_equal.
  rewrite pass_split by (apply plain_no_NUL; exact Hpre).
  rewrite run_plain by (reflexivity || exact Hpre).
  cbn [scanner_init brace_open key out]. change ([] ++ pre) with pre.
  rewrite scan_run.
  2:{ intros [H | [H | H]]; [discriminate H | discriminate H |].
      apply in_app_or in H. destruct H as [H | [H | []]];
        [exact (ident_no_NUL b Hb H) | discriminate H]. }
  rewrite !run_cons, feed_dollar by discriminate.
  rewrite feed_lbrace_after_dollar by reflexivity.
  rewrite run_app, (run_identifier m b) by (reflexivity || exact Hb).
  cbn [run fold_left]. rewrite feed_rbrace_flag_set by reflexivity.
  rewrite scan_plain_after by (discriminate || exact Hrest).
  cbn [out key app]. rewrite <- !app_assoc. reflexivity.
Qed.

(** X6.  After a text free of NUL, backslash and dollar sign, a dollar
    sign or a backslash that ends the string is dropped: the output is the
    text before it. *)
Theorem parse_once_trailing_marker (m : item_type) (pre : cstring) :
  forallb plain_char pre = true ->
  parse_once m (pre ++ [DOLLAR]) = Some pre
  /\ parse_once m (pre ++ [BACKSLASH]) = Some pre.
Proof.
  intros Hpre. rewrite !parse_once_pass.
  rewrite !pass_split by (apply plain_no_NUL; exact Hpre).
  rewrite run_plain by (reflexivity || exact Hpre).
  split; reflexivity.
Qed.

Lemma map_find_In k v : forall m,
  map_find k m = Some v -> exists k', In (k', v) m.
Proof.
  induction m as [|[k0 v0] r IH]; intros H; [discriminate H|].
  cbn [map_find] in H. destruct (str_compare k k0).
  - injection H as <-. exists k0. left. reflexivity.
  - discriminate H.
  - destruct (IH H) as [k' Hk]. exists k'. right. exact Hk.
Qed.

Lemma body_out_free (x : ascii) m c ch p :
  Forall (fun e => ~ In x (snd e)) m ->
  (next_state (state c) ch = PS_UNKNOW -> ch <> x) ->
  ~ In x (out c) -> ~ In x (out (fst (body m c ch p))).
Proof.
  intros Hm Hch Hc. unfold body.
  destruct (next_state (state c) ch) eqn:N; cbn [fst out]; try exact Hc.
  - intros H. apply in_app_or in H. destruct H as [H | [H | []]];
      [exact (Hc H)|]. exact (Hch eq_refl H).
  - destruct (map_find (key c) m) as [v|] eqn:F; cbn [out]; [|exact Hc].
    intros H. apply in_app_or in H. destruct H as [H | H]; [exact (Hc H)|].
    destruct (map_find_In _ _ _ F) as [k' Hk].
    rewrite Forall_forall in Hm. exact (Hm _ Hk H).
  - destruct (map_find (key c) m) as [v|] eqn:F; cbn [out]; [|exact Hc].
    intros H. apply in_app_or in H. destruct H as [H | H]; [exact (Hc H)|].
    destruct (map_find_In _ _ _ F) as [k' Hk].
    rewrite Forall_forall in Hm. exact (Hm _ Hk H).
Qed.

Lemma next_state_backslash st ch :
  next_state st ch = PS_UNKNOW -> ch <> BACKSLASH.
Proof.
  intros H E. subst ch. discriminate H.
Qed.

Lemma next_state_not_NUL st ch :
  next_state st ch = PS_UNKNOW -> ch <> NUL.
Proof.
  intros H E. subst ch. destruct st; discriminate H.
Qed.

Lemma feed_out_free (x : ascii) m c ch :
  Forall (fun e => ~ In x (snd e)) m ->
  (forall st, next_state st ch = PS_UNKNOW -> ch <> x) ->
  ~ In x (out c) -> ~ In x (out (feed m c ch)).
Proof.
  intros Hm Hch Hc. unfold feed.
  pose proof (body_out_free x m c ch 0 Hm (Hch _) Hc) as H1.
  destruct (body m c ch 0) as [c1 d]. cbn [fst] in H1.
  destruct (d <? 0); [|exact H1].
  apply body_out_free; [exact Hm | apply Hch | exact H1].
Qed.

Lemma scan_out_free (x : ascii) m :
  Forall (fun e => ~ In x (snd e)) m ->
  (forall st ch, next_state st ch = PS_UNKNOW -> ch <> x) ->
  forall s c, ~ In x (out c) -> ~ In x (scan m c s).
Proof.
  intros Hm Hch. induction s as [|a r IH]; intros c Hc; cbn [scan].
  - unfold finish. apply body_out_free; [exact Hm | apply Hch | exact Hc].
  - destruct (Ascii.eqb a NUL).
    + unfold finish. apply body_out_free; [exact Hm | apply Hch | exact Hc].
    + apply IH. apply feed_out_free; [exact Hm | intros st; apply Hch | exact Hc].
Qed.

(** X7.  A pass never copies a backslash or a NUL from its input: when no
    stored value contains the character, the output does not contain it,
    whatever the input.  In particular no input makes a pass write a
    backslash. *)
Theorem parse_once_never_copies_backslash (m : item_type) (s r : cstring) :
  parse_once m s = Some r ->
  (Forall (fun e => ~ In BACKSLASH (snd e)) m -> ~ In BACKSLASH r)
  /\ (Forall (fun e => ~ In NUL (snd e)) m -> ~ In NUL r).
Proof.
  rewrite parse_once_pass. intros H. injection H as <-. unfold pass.
  split; intros Hm.
  - apply scan_out_free; [exact Hm | apply next_state_backslash | intros []].
  - apply scan_out_free; [exact Hm | apply next_state_not_NUL | intros []].
Qed.

Lemma pass_plain m s : forallb plain_char s = true -> pass m s = s.
Proof.
  intros H. unfold pass. apply scan_plain; [reflexivity | exact H].
Qed.

Lemma iter_pass_plain m s : forall n,
  forallb plain_char s = true -> Nat.iter n (pass m) s = s.
Proof.
  induction n as [|n IH]; intros H; [reflexivity|].
  rewrite Nat.iter_succ, IH by exact H. apply pass_plain. exact H.
Qed.

(** X8.  Passes that come after the text has lost its dollar signs and
    backslashes change nothing: when the text after [k] passes is plain and
    [k] does not exceed the recursion level, [parse_recursive] returns that
    text. *)
Theorem parse_recursive_settles (level k : nat) (m : item_type) (v : cstring) :
  size v < npos -> In DOLLAR v -> (k <= level)%nat ->
  forallb plain_char (Nat.iter k (pass m) v) = true ->
  parse_recursive level m v = Some (Nat.iter k (pass m) v)
  /\ parse_once m (Nat.iter k (pass m) v) = Some (Nat.iter k (pass m) v).
Proof.
  intros Hv Hd Hk Hp. split.
  - unfold parse_recursive. rewrite parse_recursive_loop_go.
    + destruct (Nat.le_exists_sub k level Hk) as [q [Hq _]]. subst level.
      rewrite Nat.iter_add, iter_pass_plain by exact Hp. reflexivity.
    + rewrite (find_dollar_test v Hv). apply existsb_exists.
      exists DOLLAR. split; [exact Hd | apply Ascii.eqb_refl].
  - rewrite parse_once_pass, pass_plain by exact Hp. reflexivity.
Qed.




(** * Further properties of [trim] *)

Lemma firstn_ws n : forall w,
  forallb is_ws w = true -> forallb is_ws (firstn n w) = true.
Proof.
  induction n as [|n IH]; intros [|c r] H; try reflexivity.
  cbn [forallb] in H. apply andb_prop in H. destruct H as [Hc Hr].
  cbn [firstn forallb]. rewrite Hc, IH by exact Hr. reflexivity.
Qed.

Lemma firstn_nil_iff {A} (w : list A) n :
  firstn n w = [] <-> n = 0%nat \/ w = [].
Proof.
  destruct n, w; cbn; split; intros H; auto; try discriminate;
    destruct H; discriminate.
Qed.

(** X10.  What [trim] returns on any string shorter than [npos]: the empty
    string when there is only whitespace; otherwise the string is leading
    whitespace [w1], a core [a] with non-whitespace ends, trailing whitespace
    [w2], and the result is [a] followed by the first [length w1]
    characters of [w2].  [trim] never throws. *)
Theorem trim_general (s : cstring) :
  size s < npos ->
  (forallb is_ws s = true -> trim s = Some [])
  /\ (forallb is_ws s = false ->
      exists w1 a w2,
        s = w1 ++ a ++ w2 /\ forallb is_ws w1 = true
        /\ forallb is_ws w2 = true /\ no_ws_ends a = true
        /\ trim s = Some (a ++ firstn (List.length w1) w2)).
Proof.
  intros Hsz. split; intros H.
  - apply trim_all_ws. exact H.
  - destruct (ws_split s H) as (w1 & a & w2 & E & H1 & H2 & Ha).
    exists w1, a, w2. repeat (split; [assumption|]).
    rewrite E. apply trim_shape; try assumption. rewrite <- E. exact Hsz.
Qed.

(** X11.  [trim] removes all the whitespace around the core exactly when
    the string has no leading or no trailing whitespace. *)
Theorem trim_exact_iff (w1 a w2 : cstring) :
  forallb is_ws w1 = true -> forallb is_ws w2 = true ->
  no_ws_ends a = true -> size (w1 ++ a ++ w2) < npos ->
  trim (w1 ++ a ++ w2) = Some a <-> w1 = [] \/ w2 = [].
Proof.
  intros H1 H2 Ha Hsz. rewrite trim_shape by assumption. split.
  - intros H. injection H as H.
    rewrite <- (app_nil_r a) in H at 2. apply app_inv_head in H.
    apply firstn_nil_iff in H. destruct H as [H | H]; [left | right; exact H].
    destruct w1; [reflexivity | discriminate H].
  - intros [E | E]; subst; rewrite ?firstn_nil; cbn [List.length firstn];
      rewrite app_nil_r; reflexivity.
Qed.

(** X12.  Applying [trim] twice removes all the whitespace around the
    core: the first call removes the leading whitespace, so the second is
    exact. *)
Theorem trim_twice (w1 a w2 : cstring) :
  forallb is_ws w1 = true -> forallb is_ws w2 = true ->
  no_ws_ends a = true -> size (w1 ++ a ++ w2) < npos ->
  exists t, trim (w1 ++ a ++ w2) = Some t /\ trim t = Some a.
Proof.
  intros H1 H2 Ha Hsz. exists (a ++ firstn (List.length w1) w2).
  split; [apply trim_shape; assumption|].
  apply trim_right; [apply firstn_ws; exact H2 | exact Ha |].
  rewrite !size_app in *. pose proof (size_nonneg w1).
  assert (size (firstn (List.length w1) w2) <= size w2).
  { unfold size. apply Nat2Z.inj_le. rewrite length_firstn. lia. }
  lia.
Qed.

(** * Further properties of [insert] and of the store *)

Lemma find_first (ch : ascii) (a b : cstring) :
  ~ In ch a -> find ch (a ++ ch :: b) 0 = size a.
Proof.
  intros H. rewrite find_0, find_from_app_absent by exact H.
  cbn [find_from]. rewrite Ascii.eqb_refl. lia.
Qed.

(** The line [kp=vp], where [kp] has no [=]: key and value are the two
    parts trimmed. *)
Lemma insert_split (kp vp k v : cstring) st :
  ~ In EQUALS kp -> size (line_of kp vp) < two31 ->
  trim kp = Some k -> trim vp = Some v ->
  insert (line_of kp vp) st
  = Some (if is_empty k then st else with_map st (map_set k v (map_ st))).
Proof.
  intros He Hsz Hk Hv. unfold line_of in *.
  rewrite size_app, size_cons in Hsz.
  pose proof (size_nonneg kp). pose proof (size_nonneg vp).
  unfold insert. rewrite (find_first EQUALS kp vp He).
  rewrite !to_int_small by (rewrite ?to_int_small; lia).
  rewrite !to_size_t_small by lia.
  rewrite substr_prefix, Hk.
  replace (kp ++ EQUALS :: vp) with ((kp ++ [EQUALS]) ++ vp)
    by (rewrite <- app_assoc; reflexivity).
  replace (size kp + 1) with (size (kp ++ [EQUALS]))
    by (rewrite size_app; reflexivity).
  rewrite substr_suffix
    by (rewrite !size_app; change (size [EQUALS]) with 1;
        unfold two31, npos in *; lia).
  rewrite Hv. destruct k; reflexivity.
Qed.

Lemma trim_parts_total (kp vp : cstring) :
  ~ In EQUALS kp -> size (line_of kp vp) < two31 ->
  exists k v, trim kp = Some k /\ trim vp = Some v.
Proof.
  intros He Hsz. unfold line_of in Hsz.
  rewrite size_app, size_cons in Hsz.
  pose proof (size_nonneg kp). pose proof (size_nonneg vp).
  destruct (trim_total kp) as (k & Hk & _); [unfold two31, npos in *; lia|].
  destruct (trim_total vp) as (v & Hv & _); [unfold two31, npos in *; lia|].
  exists k, v. split; assumption.
Qed.

(** X13.  [insert] cuts a line at its first [=]: the key is the text before
    it and the value the text after it, later [=] included, each passed
    through [trim]; the entry is stored unless the key is empty, and a line
    whose key part is only whitespace leaves the object as it is.  Stated
    for lines shorter than 2^31 characters, whose positions fit the [int]
    [break_pos]. *)
Theorem insert_cuts_at_first_equals (kp vp : cstring) (st : setting) :
  ~ In EQUALS kp -> size (line_of kp vp) < two31 ->
  exists k v,
    trim kp = Some k /\ trim vp = Some v
    /\ insert (line_of kp vp) st
       = Some (if is_empty k then st
               else with_map st (map_set k v (map_ st)))
    /\ (forallb is_ws kp = true -> insert (line_of kp vp) st = Some st).
Proof.
  intros He Hsz. assert (Hsz' := Hsz). unfold line_of in Hsz'.
  rewrite size_app, size_cons in Hsz'.
  pose proof (size_nonneg kp). pose proof (size_nonneg vp).
  destruct (trim_total kp) as (k & Hk & _); [unfold two31, npos in *; lia|].
  destruct (trim_total vp) as (v & Hv & _); [unfold two31, npos in *; lia|].
  exists k, v. split; [exact Hk|]. split; [exact Hv|]. split.
  - apply insert_split; assumption.
  - intros Hw. rewrite (insert_split kp vp [] v) by
      (try assumption; apply trim_all_ws; exact Hw).
    reflexivity.
Qed.

Lemma map_set_twice k v1 v2 : forall m,
  map_set k v2 (map_set k v1 m) = map_set k v2 m.
Proof.
  induction m as [|[k0 v0] r IH]; cbn [map_set].
  - rewrite str_compare_refl. reflexivity.
  - destruct (str_compare k k0) eqn:E; cbn [map_set].
    + rewrite E. reflexivity.
    + rewrite str_compare_refl. reflexivity.
    + rewrite E, IH. reflexivity.
Qed.

(** X14.  A later line replaces the entry of an earlier line with the same
    key part: entering [kp=vp2] after [kp=vp1] gives the object that
    entering [kp=vp2] alone gives. *)
Theorem insert_overwrites (kp vp1 vp2 : cstring) (st st1 : setting) :
  ~ In EQUALS kp ->
  size (line_of kp vp1) < two31 -> size (line_of kp vp2) < two31 ->
  insert (line_of kp vp1) st = Some st1 ->
  insert (line_of kp vp2) st1 = insert (line_of kp vp2) st.
Proof.
  intros He Hs1 Hs2 H1.
  destruct (trim_parts_total kp vp1 He Hs1) as (k & v1 & Hk & Hv1).
  destruct (trim_parts_total kp vp2 He Hs2) as (k' & v2 & Hk' & Hv2).
  assert (k' = k) by congruence. subst k'.
  rewrite (insert_split kp vp1 k v1) in H1 by assumption.
  rewrite !(insert_split kp vp2 k v2) by assumption.
  injection H1 as <-. destruct k; [reflexivity|]. cbn [is_empty].
  unfold with_map. cbn [map_ recursion_level_ reserve_].
  rewrite map_set_twice. reflexivity.
Qed.

Lemma str_compare_neq a b : a <> b -> str_compare a b <> Eq.
Proof. intros H E. apply H. apply str_compare_eq. exact E. Qed.

Lemma str_compare_lt_trans a b c :
  str_compare a b = Lt -> str_compare b c = Lt -> str_compare a c = Lt.
Proof. apply str_lt_trans. Qed.

Lemma str_compare_gt_trans a b c :
  str_compare a b = Gt -> str_compare b c = Gt -> str_compare a c = Gt.
Proof.
  intros H1 H2. apply str_lt_gt.
  apply (str_lt_trans c b a); apply str_gt_lt; assumption.
Qed.

Lemma map_find_set_other k k' v : forall m,
  k' <> k -> map_find k' (map_set k v m) = map_find k' m.
Proof.
  intros m Hne. pose proof (str_compare_neq k' k Hne) as Hc.
  induction m as [|[k0 v0] r IH]; cbn [map_set map_find].
  - destruct (str_compare k' k); [contradiction | reflexivity | reflexivity].
  - destruct (str_compare k k0) eqn:E; cbn [map_find].
    + apply str_compare_eq in E. subst k0.
      destruct (str_compare k' k); [contradiction | reflexivity | reflexivity].
    + destruct (str_compare k' k) eqn:E1; [contradiction | | reflexivity].
      rewrite (str_compare_lt_trans k' k k0 E1 E). reflexivity.
    + destruct (str_compare k' k0); [reflexivity | reflexivity | exact IH].
Qed.

Lemma map_set_comm k1 v1 k2 v2 : forall m,
  k1 <> k2 ->
  map_set k1 v1 (map_set k2 v2 m) = map_set k2 v2 (map_set k1 v1 m).
Proof.
  intros m Hne.
  assert (H12 : str_compare k1 k2 <> Eq) by (apply str_compare_neq; exact Hne).
  assert (H21 : str_compare k2 k1 = CompOpp (str_compare k1 k2))
    by apply str_compare_antisym.
  induction m as [|[k0 v0] r IH]; cbn [map_set].
  - rewrite H21. destruct (str_compare k1 k2); [contradiction | |]; reflexivity.
  - destruct (str_compare k1 k0) eqn:E1; destruct (str_compare k2 k0) eqn:E2;
      cbn [map_set]; rewrite ?E1, ?E2.
    + exfalso. apply Hne. apply str_compare_eq in E1, E2. congruence.
    + apply str_compare_eq in E1. subst k0.
      rewrite (str_lt_gt _ _ E2). reflexivity.
    + reflexivity.
    + apply str_compare_eq in E2. subst k0.
      rewrite (str_lt_gt _ _ E1). reflexivity.
    + rewrite H21. destruct (str_compare k1 k2) eqn:E; [contradiction | |];
        reflexivity.
    + assert (E : str_compare k1 k2 = Lt).
      { apply (str_lt_trans k1 k0 k2); [exact E1|]. apply str_gt_lt. exact E2. }
      rewrite H21, E. reflexivity.
    + reflexivity.
    + assert (E : str_compare k1 k2 = Gt).
      { apply str_lt_gt. apply (str_lt_trans k2 k0 k1); [exact E2|].
        apply str_gt_lt. exact E1. }
      rewrite E. reflexivity.
    + rewrite IH. reflexivity.
Qed.

(** X15.  After a line [kp=vp] with a non-empty trimmed key [k] has been
    entered, [k] is mapped to the trimmed value and every other key is
    mapped as before. *)
Theorem insert_then_find (kp vp k v : cstring) (st st' : setting) :
  ~ In EQUALS kp -> size (line_of kp vp) < two31 ->
  trim kp = Some k -> k <> [] -> trim vp = Some v ->
  insert (line_of kp vp) st = Some st' ->
  map_find k (map_ st') = Some v
  /\ forall k', k' <> k -> map_find k' (map_ st') = map_find k' (map_ st).
Proof.
  intros He Hsz Hk Hne Hv H.
  rewrite (insert_split kp vp k v) in H by assumption.
  destruct k; [contradiction|]. cbn [is_empty] in H. injection H as <-.
  cbn [with_map map_]. split.
  - apply map_find_set_same.
  - intros k' Hk'. apply map_find_set_other. exact Hk'.
Qed.

(** X16.  Lines with different keys can be entered in either order: the
    resulting object is the same. *)
Theorem insert_order_irrelevant
  (kp1 vp1 kp2 vp2 k1 k2 : cstring) (st : setting) :
  ~ In EQUALS kp1 -> ~ In EQUALS kp2 ->
  size (line_of kp1 vp1) < two31 -> size (line_of kp2 vp2) < two31 ->
  trim kp1 = Some k1 -> trim kp2 = Some k2 -> k1 <> k2 ->
  inserts [line_of kp1 vp1; line_of kp2 vp2] st
  = inserts [line_of kp2 vp2; line_of kp1 vp1] st.
Proof.
  intros He1 He2 Hs1 Hs2 Hk1 Hk2 Hne.
  destruct (trim_parts_total kp1 vp1 He1 Hs1) as (k1' & v1 & Hk1' & Hv1).
  destruct (trim_parts_total kp2 vp2 He2 Hs2) as (k2' & v2 & Hk2' & Hv2).
  assert (k1' = k1) by congruence. assert (k2' = k2) by congruence.
  subst k1' k2'. cbn [inserts].
  rewrite (insert_split kp1 vp1 k1 v1 st), (insert_split kp2 vp2 k2 v2 st)
    by assumption.
  rewrite (insert_split kp2 vp2 k2 v2), (insert_split kp1 vp1 k1 v1)
    by assumption.
  destruct k1 as [|x1 r1], k2 as [|x2 r2]; cbn [is_empty];
    try reflexivity.
  unfold with_map. cbn [map_ recursion_level_ reserve_].
  rewrite (map_set_comm (x1 :: r1) v1 (x2 :: r2) v2) by exact Hne.
  reflexivity.
Qed.

Lemma insert_keys_nonempty s st st' :
  insert s st = Some st' -> keys_nonempty (map_ st) ->
  keys_nonempty (map_ st').
Proof.
  unfold insert, keys_nonempty. intros H Hok.
  destruct (substr s 0 _); [|discriminate H].
  destruct (trim _) as [k|]; [|discriminate H].
  destruct (substr s _ npos); [|discriminate H].
  destruct (trim _) as [v|]; [|discriminate H].
  destruct k as [|x r]; cbn [is_empty negb] in H; injection H as <-;
    [exact Hok|].
  cbn [with_map map_].
  apply (map_set_Forall (fun key => key <> [])); [discriminate | exact Hok].
Qed.

Lemma load_line_invariant l st st' :
  load_line l st = Some st' ->
  map_ok (map_ st) -> keys_nonempty (map_ st) ->
  recursion_level_ st' = recursion_level_ st
  /\ map_ok (map_ st') /\ keys_nonempty (map_ st').
Proof.
  unfold load_line. intros H Hok Hne.
  destruct (trim l) as [t|]; [|discriminate H].
  destruct (negb (is_empty t) && negb (Ascii.eqb (hd NUL t) HASH)).
  - split; [exact (insert_level _ _ _ H)|].
    split; [exact (insert_ok _ _ _ H Hok)|].
    exact (insert_keys_nonempty _ _ _ H Hne).
  - injection H as <-. auto.
Qed.

Lemma load_lines_invariant : forall lines st st',
  load_lines lines st = Some st' ->
  map_ok (map_ st) -> keys_nonempty (map_ st) ->
  recursion_level_ st' = recursion_level_ st
  /\ map_ok (map_ st') /\ keys_nonempty (map_ st').
Proof.
  induction lines as [|l r IH]; intros st st' H Hok Hne.
  - injection H as <-. auto.
  - cbn [load_lines] in H. destruct (load_line l st) as [st1|] eqn:E;
      [|discriminate H].
    destruct (load_line_invariant _ _ _ E Hok Hne) as (L1 & O1 & N1).
    destruct (IH st1 st' H O1 N1) as (L2 & O2 & N2).
    split; [congruence | auto].
Qed.

Lemma inserts_keys_nonempty : forall lines st st',
  inserts lines st = Some st' -> keys_nonempty (map_ st) ->
  keys_nonempty (map_ st').
Proof.
  induction lines as [|l r IH]; intros st st' H Hne.
  - injection H as <-. exact Hne.
  - cbn [inserts] in H. destruct (insert l st) as [st1|] eqn:E;
      [|discriminate H].
    exact (IH st1 st' H (insert_keys_nonempty _ _ _ E Hne)).
Qed.

(** X17.  The invariants of an object built from a file and extended by
    [operator<<]: its keys are strictly increasing (so unique), none is
    empty, and the recursion level is the one given to the constructor. *)
Theorem store_invariants
  (text : cstring) (level : nat) (lines : list cstring) (st1 st2 : setting) :
  new_setting_from_file (Some text) level = Some st1 ->
  inserts lines st1 = Some st2 ->
  map_ok (map_ st2) /\ keys_nonempty (map_ st2)
  /\ recursion_level_ st2 = level.
Proof.
  unfold new_setting_from_file, read_from_file. intros H1 H2.
  destruct (load_lines_invariant _ _ _ H1) as (L1 & O1 & N1);
    [constructor | constructor |].
  destruct (inserts_invariant _ _ _ H2 O1) as (L2 & O2).
  split; [exact O2|]. split; [exact (inserts_keys_nonempty _ _ _ H2 N1)|].
  rewrite L2, L1. reflexivity.
Qed.

(** * Further properties of [read_from_file] *)

Lemma trim_head (w rest : cstring) (c : ascii) :
  forallb is_ws w = true -> is_ws c = false ->
  size (w ++ c :: rest) < npos ->
  exists t, trim (w ++ c :: rest) = Some (c :: t).
Proof.
  intros Hw Hc Hsz.
  destruct (strip_trailing (c :: rest)) as (a & w2 & E & H2 & Ha);
    [discriminate | exact Hc |].
  destruct a as [|x a']; [discriminate Ha|].
  injection E as <- E. rewrite E.
  exists (a' ++ firstn (List.length w) w2).
  change (c :: a' ++ w2) with ((c :: a') ++ w2).
  rewrite trim_shape; [reflexivity | assumption | assumption | assumption |].
  cbn [app]. rewrite <- E. exact Hsz.
Qed.

(** X18.  [read_from_file] skips blank lines and comment lines: a line of
    whitespace only, and a line whose first non-whitespace character is
    [#], leave the object as it is. *)
Theorem load_line_skips (line : cstring) (st : setting) :
  size line < npos ->
  (forallb is_ws line = true -> load_line line st = Some st)
  /\ (forall w rest, line = w ++ HASH :: rest -> forallb is_ws w = true ->
      load_line line st = Some st).
Proof.
  intros Hsz. split.
  - intros H. unfold load_line. rewrite trim_all_ws by exact H. reflexivity.
  - intros w rest E Hw. subst line.
    destruct (trim_head w rest HASH Hw eq_refl Hsz) as [t Ht].
    unfold load_line. rewrite Ht. reflexivity.
Qed.

Lemma getlines_tail : forall tail cur, ~ In LF tail -> getlines tail cur = [].
Proof.
  induction tail as [|c r IH]; intros cur H; [reflexivity|].
  cbn [getlines]. destruct (Ascii.eqb c LF) eqn:E.
  - apply Ascii.eqb_eq in E. subst c. exfalso. apply H. left. reflexivity.
  - apply IH. intros HI. apply H. right. exact HI.
Qed.

Lemma getlines_file_text : forall lines tail,
  Forall (fun l => ~ In LF l) lines -> ~ In LF tail ->
  getlines (file_text lines tail) [] = lines.
Proof.
  unfold file_text.
  induction lines as [|l r IH]; intros tail Hl Ht; cbn [map List.concat app].
  - apply getlines_tail. exact Ht.
  - inversion Hl as [|x y Hx Hy]; subst.
    rewrite <- !app_assoc. cbn [app].
    rewrite getlines_line by exact Hx. cbn [app]. f_equal.
    apply IH; assumption.
Qed.

(** X19.  [read_from_file] processes the lines that end in a line feed, in
    order, and nothing else: what follows the last line feed of the file
    is not read into the object. *)
Theorem read_from_file_lines
  (lines : list cstring) (tail : cstring) (st : setting) :
  Forall (fun l => ~ In LF l) lines -> ~ In LF tail ->
  read_from_file (Some (file_text lines tail)) st = load_lines lines st
  /\ read_from_file (Some (file_text lines tail)) st
     = read_from_file (Some (file_text lines [])) st.
Proof.
  intros Hl Ht. unfold read_from_file.
  rewrite !getlines_file_text by (assumption || intros []).
  split; reflexivity.
Qed.

Lemma trim_size (s t : cstring) :
  size s < npos -> trim s = Some t ->
  size t <= size s /\ (t = [] \/ is_ws (hd SPACE t) = false).
Proof.
  intros Hsz Ht. destruct (forallb is_ws s) eqn:E.
  - rewrite (trim_all_ws s E) in Ht. injection Ht as <-.
    split; [apply size_nonneg | left; reflexivity].
  - destruct (ws_split s E) as (w1 & a & w2 & Es & Hw1 & Hw2 & Ha).
    assert (Hs : trim s = Some (a ++ firstn (List.length w1) w2)).
    { rewrite Es. apply trim_shape; try assumption. rewrite <- Es. exact Hsz. }
    rewrite Hs in Ht. injection Ht as <-. split.
    + rewrite Es, !size_app. pose proof (size_nonneg w1).
      assert (size (firstn (List.length w1) w2) <= size w2).
      { unfold size. apply Nat2Z.inj_le. rewrite length_firstn. lia. }
      lia.
    + right. destruct a as [|x a']; [discriminate Ha|].
      cbn [app hd]. exact (no_ws_ends_hd _ Ha).
Qed.

Lemma trim_clean_head (p : cstring) :
  p <> [] -> is_ws (hd SPACE p) = false -> size p < npos ->
  exists a, trim p = Some a /\ no_ws_ends a = true.
Proof.
  intros Hne Hh Hsz.
  destruct (strip_trailing p Hne Hh) as (a & w & E & Hw & Ha).
  exists a. split; [|exact Ha]. rewrite E. apply trim_right; try assumption.
  rewrite <- E. exact Hsz.
Qed.

Lemma firstn_hd {A} (d : A) n (t : list A) :
  firstn n t <> [] -> hd d (firstn n t) = hd d t.
Proof. destruct n, t; cbn; intros H; congruence. Qed.

Lemma insert_keys_clean (t : cstring) st st' :
  size t < npos -> t = [] \/ is_ws (hd SPACE t) = false ->
  insert t st = Some st' -> keys_clean (map_ st) -> keys_clean (map_ st').
Proof.
  intros Hsz Ht H Hok. unfold insert in H.
  unfold substr at 1 in H. pose proof (size_nonneg t) as Hnn.
  destruct (size t <? 0) eqn:E0; [apply Z.ltb_lt in E0; lia|].
  cbn [Z.to_nat skipn] in H.
  set (p := firstn _ t) in H.
  assert (Hp : size p <= size t).
  { unfold size. apply Nat2Z.inj_le. unfold p. rewrite length_firstn. lia. }
  destruct p as [|x p'] eqn:Ep.
  - change (trim []) with (Some (@nil ascii)) in H.
    destruct (substr t _ npos); [|discriminate H].
    destruct (trim _); [|discriminate H]. injection H as <-. exact Hok.
  - destruct (trim_clean_head (x :: p')) as (a & Ha & Hc).
    + discriminate.
    + rewrite <- Ep. unfold p. rewrite firstn_hd by (fold p; congruence).
      destruct Ht as [Ht | Ht]; [|exact Ht].
      subst t. unfold p in Ep. rewrite firstn_nil in Ep. discriminate Ep.
    + lia.
    + rewrite Ha in H.
      destruct (substr t _ npos); [|discriminate H].
      destruct (trim _) as [v|]; [|discriminate H].
      destruct a as [|y a']; [discriminate Hc|].
      cbn [is_empty negb] in H. injection H as <-. cbn [with_map map_].
      apply (map_set_Forall (fun key => no_ws_ends key = true));
        [exact Hc | exact Hok].
Qed.

Lemma load_lines_keys_clean : forall lines st st',
  Forall (fun l => size l < npos) lines ->
  load_lines lines st = Some st' ->
  keys_clean (map_ st) -> keys_clean (map_ st').
Proof.
  induction lines as [|l r IH]; intros st st' Hsz H Hok.
  - injection H as <-. exact Hok.
  - inversion Hsz as [|x y Hx Hy]; subst.
    cbn [load_lines] in H.
    destruct (load_line l st) as [st1|] eqn:E; [|discriminate H].
    apply (IH st1 st' Hy H).
    unfold load_line in E. destruct (trim l) as [t|] eqn:Et;
      [|discriminate E].
    destruct (trim_size l t Hx Et) as [Hs Hh].
    destruct (negb (is_empty t) && negb (Ascii.eqb (hd NUL t) HASH)).
    + apply (insert_keys_clean t st st1); [lia | exact Hh | exact E | exact Hok].
    + injection E as <-. exact Hok.
Qed.

(** X20.  Every key of an object read from a file is free of whitespace at
    both ends: the line is trimmed before it is cut, so the key part has no
    leading whitespace and [trim] is exact on it. *)
Theorem file_keys_clean
  (lines : list cstring) (tail : cstring) (level : nat) (st : setting) :
  Forall (fun l => ~ In LF l /\ size l < npos) lines -> ~ In LF tail ->
  new_setting_from_file (Some (file_text lines tail)) level = Some st ->
  keys_clean (map_ st).
Proof.
  intros Hl Ht H. unfold new_setting_from_file, read_from_file in H.
  rewrite getlines_file_text in H;
    [| eapply Forall_impl; [|exact Hl]; intros l [Hn _]; exact Hn | exact Ht].
  apply (load_lines_keys_clean lines (new_setting level) st);
    [eapply Forall_impl; [|exact Hl]; intros l [_ Hs]; exact Hs
    | exact H | constructor].
Qed.

(** * Further properties of the getters *)

Lemma parse_recursive_without_dollar level m (raw : cstring) :
  size raw < npos -> ~ In DOLLAR raw ->
  parse_recursive level m raw = Some raw.
Proof.
  intros Hsz Hd. apply parse_recursive_loop_stop.
  rewrite (find_dollar_test raw Hsz).
  destruct (existsb (Ascii.eqb DOLLAR) raw) eqn:E; [|reflexivity].
  apply existsb_exists in E. destruct E as [x [Hx E]].
  apply Ascii.eqb_eq in E. subst x. contradiction.
Qed.

Lemma parse_recursive_total level m (raw : cstring) :
  exists r, parse_recursive level m raw = Some r.
Proof.
  unfold parse_recursive. generalize raw at 2 as lhs.
  induction level as [|n IH]; intros lhs; cbn [parse_recursive_loop].
  - eauto.
  - destruct (find DOLLAR raw 0 <? npos); [|eauto].
    rewrite parse_once_pass. apply IH.
Qed.

(** X21.  A read never throws and never changes the map or the recursion
    level: [get_value] succeeds exactly on the keys of the map, leaves the
    object untouched on the others, and only writes [reserve_]; asked
    again, it gives the same answer. *)
Theorem get_value_reads_only (k : cstring) (st : setting) :
  exists found st',
    get_value k st = Some (found, st')
    /\ map_ st' = map_ st
    /\ recursion_level_ st' = recursion_level_ st
    /\ (found = true <-> map_find k (map_ st) <> None)
    /\ (found = false -> st' = st)
    /\ get_value k st' = Some (found, st').
Proof.
  unfold get_value. destruct (map_find k (map_ st)) as [raw|] eqn:F.
  - destruct (parse_recursive_total (recursion_level_ st) (map_ st) raw)
      as [r Hr].
    exists true, (with_reserve st r). rewrite Hr.
    cbn [with_reserve map_ recursion_level_]. rewrite F, Hr.
    repeat split; try reflexivity; try discriminate.
  - exists false, st. rewrite F. repeat split; try reflexivity.
    + discriminate.
    + intros H. contradiction.
Qed.

(** X22.  A value without dollar sign is returned as stored: for a key
    whose raw value has none, [get_cstr] returns the raw value (read as a C
    string) and the numeric getters convert it, with no interpolation pass
    and whatever the default. *)
Theorem getters_without_dollar
  (atoi atol atoll : cstring -> Z) (k raw : cstring) (st : setting) :
  map_find k (map_ st) = Some raw -> size raw < npos -> ~ In DOLLAR raw ->
  (forall d, get_cstr k d st
             = Some (Some (c_str raw), with_reserve st raw))
  /\ (forall d, get_int atoi k d st
                = Some (atoi (c_str raw), with_reserve st raw))
  /\ (forall d, get_long atol k d st
                = Some (atol (c_str raw), with_reserve st raw))
  /\ (forall d, get_longlong atoll k d st
                = Some (atoll (c_str raw), with_reserve st raw)).
Proof.
  intros F Hsz Hd.
  assert (G : get_value k st = Some (true, with_reserve st raw)).
  { unfold get_value.
    rewrite F, (parse_recursive_without_dollar _ _ raw Hsz Hd). reflexivity. }
  unfold get_cstr, get_int, get_long, get_longlong. rewrite G.
  repeat split.
Qed.

(** X23.  Round trip through the store: after the line [kp=vp] has been
    entered, with a non-empty trimmed key [k] and a trimmed value [v] free
    of dollar signs, [get_cstr] on [k] returns [v]. *)
Theorem insert_then_get_cstr
  (kp vp k v : cstring) (d : option cstring) (st st' : setting) :
  ~ In EQUALS kp -> size (line_of kp vp) < two31 ->
  trim kp = Some k -> k <> [] -> trim vp = Some v -> ~ In DOLLAR v ->
  insert (line_of kp vp) st = Some st' ->
  get_cstr k d st' = Some (Some (c_str v), with_reserve st' v).
Proof.
  intros He Hsz Hk Hne Hv Hd H.
  assert (Hsv : size v < npos).
  { unfold line_of in Hsz. rewrite size_app, size_cons in Hsz.
    pose proof (size_nonneg kp).
    assert (size v <= size vp); [|unfold two31, npos in *; lia].
    apply (trim_size vp v); [unfold two31, npos in *; lia | exact Hv]. }
  rewrite (insert_split kp vp k v) in H by assumption.
  destruct k; [contradiction|]. cbn [is_empty] in H. injection H as <-.
  unfold get_cstr, get_value. cbn [with_map map_ recursion_level_].
  rewrite map_find_set_same.
  rewrite (parse_recursive_without_dollar _ _ v Hsv Hd). reflexivity.
Qed.

(** * Further properties of [get_vector] *)

Lemma get_vector_loop_appends : forall fuel reserve pos vec v,
  get_vector_loop fuel reserve pos vec = Some v ->
  exists added, v = vec ++ added /\ Forall (fun e => e <> []) added.
Proof.
  induction fuel as [|f IH]; intros reserve pos vec v H; [discriminate H|].
  rewrite get_vector_loop_S in H. cbn zeta in H.
  destruct (pos <? npos).
  - destruct (substr reserve pos _); [|discriminate H].
    destruct (trim _) as [t|]; [|discriminate H].
    destruct (IH _ _ _ _ H) as (added & E & Hf).
    destruct t as [|x t']; cbn [is_empty negb] in E.
    + exists added. auto.
    + exists ((x :: t') :: added). rewrite E, <- app_assoc. split;
        [reflexivity|]. constructor; [discriminate | exact Hf].
  - injection H as <-. exists []. rewrite app_nil_r. auto.
Qed.

(** X24.  [get_vector] only appends: the vector it is given is kept as a
    prefix of the result, no element it adds is empty, on a key that is not
    in the map it returns [false] and adds nothing, and the map is never
    changed. *)
Theorem get_vector_appends
  (k : cstring) (vec v : list cstring) (found : bool) (st st' : setting) :
  get_vector k vec st = Some (found, v, st') ->
  map_ st' = map_ st
  /\ (found = true <-> map_find k (map_ st) <> None)
  /\ (found = false -> v = vec /\ st' = st)
  /\ exists added, v = vec ++ added /\ Forall (fun e => e <> []) added.
Proof.
  unfold get_vector, get_value. intros H.
  destruct (map_find k (map_ st)) as [raw|] eqn:F.
  - destruct (parse_recursive _ _ raw) as [r|]; [|discriminate H].
    cbn [with_reserve reserve_] in H.
    destruct (get_vector_loop _ r 0 vec) as [v'|] eqn:L; [|discriminate H].
    injection H as <- <- <-. split; [reflexivity|].
    split; [split; [discriminate | reflexivity]|].
    split; [discriminate|].
    exact (get_vector_loop_appends _ _ _ _ _ L).
  - injection H as <- <- <-. split; [reflexivity|].
    split; [split; [discriminate | intros H; contradiction]|].
    split; [auto|]. exists []. rewrite app_nil_r. auto.
Qed.

Lemma segments_size : forall s cur,
  Forall (fun g => size g <= size cur + size s) (segments s cur).
Proof.
  induction s as [|c r IH]; intros cur; cbn [segments].
  - constructor; [|constructor]. unfold size. cbn. lia.
  - rewrite size_cons. pose proof (size_nonneg r). pose proof (size_nonneg cur).
    destruct (Ascii.eqb c COMMA).
    + constructor; [lia|].
      eapply Forall_impl; [|apply IH]. intros g Hg. cbn beta in *.
      change (size []) with 0 in Hg. lia.
    + eapply Forall_impl; [|apply IH]. intros g Hg. cbn beta in *.
      rewrite size_snoc in Hg. lia.
Qed.

Lemma collect_total : forall segs vec,
  Forall (fun g => size g < npos) segs -> exists v, collect segs vec = Some v.
Proof.
  induction segs as [|g r IH]; intros vec H; cbn [collect]; [eauto|].
  inversion H as [|x y Hx Hy]; subst.
  destruct (trim_total g Hx) as (t & Ht & _). rewrite Ht. apply IH. exact Hy.
Qed.

(** X25.  What [get_vector] returns on a key of the map: the resolved value
    is cut at its commas, [trim] is applied to each piece, and the results
    that are not empty are appended to the vector in order.  The call
    returns [true] and never throws; stated for resolved values shorter
    than [npos - 1]. *)
Theorem get_vector_cuts_at_commas
  (k raw r : cstring) (vec : list cstring) (st : setting) :
  map_find k (map_ st) = Some raw ->
  parse_recursive (recursion_level_ st) (map_ st) raw = Some r ->
  size r < npos - 1 ->
  exists v, collect (segments r []) vec = Some v
            /\ get_vector k vec st = Some (true, v, with_reserve st r).
Proof.
  intros F Hr Hsz.
  destruct (collect_total (segments r []) vec) as [v Hv].
  { eapply Forall_impl; [|apply (segments_size r [])].
    intros g Hg. cbn beta in Hg. change (size []) with 0 in Hg. lia. }
  exists v. split; [exact Hv|].
  rewrite (get_vector_segments k vec st raw r F Hr Hsz), Hv. reflexivity.
Qed.

(** X26.  A line without [=] that has a non-whitespace character is
    neither dropped nor stored with an empty value.  The line being leading
    whitespace [w1], a core [a] with non-whitespace ends and trailing
    whitespace [w2], the entry stored has for key and for value the same
    text [t], namely [a] followed by the first [length w1] characters of
    [w2]; when the line has no leading or no trailing whitespace, the entry
    is [a] to [a]. *)
Theorem insert_without_equals_entry (w1 a w2 : cstring) (st : setting) :
  forallb is_ws w1 = true -> forallb is_ws w2 = true ->
  no_ws_ends a = true ->
  ~ In EQUALS (w1 ++ a ++ w2) -> size (w1 ++ a ++ w2) < npos ->
  let t := a ++ firstn (List.length w1) w2 in
  insert (w1 ++ a ++ w2) st = Some (with_map st (map_set t t (map_ st)))
  /\ map_find t (map_set t t (map_ st)) = Some t
  /\ (w1 = [] \/ w2 = [] ->
      insert (w1 ++ a ++ w2) st = Some (with_map st (map_set a a (map_ st)))).
Proof.
  intros H1 H2 Ha He Hsz t.
  pose proof (trim_shape w1 a w2 H1 H2 Ha Hsz) as Ht. fold t in Ht.
  destruct (insert_no_equals _ t st He Hsz Ht) as [_ Hi].
  assert (Hn : is_empty t = false).
  { unfold t. destruct a; [discriminate Ha | reflexivity]. }
  rewrite Hn in Hi. split; [exact Hi|]. split; [apply map_find_set_same|].
  intros Hw. rewrite Hi. replace t with a; [reflexivity|].
  unfold t. destruct Hw as [E | E]; subst; rewrite ?firstn_nil;
    cbn [List.length firstn]; rewrite app_nil_r; reflexivity.
Qed.

(** * Instances of the further properties *)

Lemma parse_once_terminates_witness :
  parse_once store_y (str "$y and ${y}") <> None
  /\ parse_loop 40 store_y (str "$y and ${y}") scanner_init 0
     = parse_once store_y (str "$y and ${y}").
Proof.
  apply (parse_once_terminates store_y (str "$y and ${y}") 40).
  apply Nat.leb_le. reflexivity.
Defined.

Lemma parse_once_plain_witness :
  parse_once store_y (str "a {plain} text") = Some (str "a {plain} text").
Proof.
  apply (parse_once_plain store_y (str "a {plain} text")). reflexivity.
Defined.

Lemma parse_once_bare_reference_witness :
  parse_once store_y (str "<" ++ (DOLLAR :: str "y") ++ str ">")
  = Some (str "<" ++ lookup_text store_y (str "y") ++ str ">").
Proof.
  apply (parse_once_bare_reference store_y (str "<") (str "y") (str ">"));
    reflexivity || discriminate.
Defined.

Lemma parse_once_brace_reference_witness :
  parse_once store_y
    (str "<" ++ (DOLLAR :: LBRACE :: str "y" ++ [RBRACE]) ++ str "z>")
  = Some (str "<" ++ lookup_text store_y (str "y") ++ str "z>").
Proof.
  apply (parse_once_brace_reference store_y (str "<") (str "y") (str "z>"));
    reflexivity.
Defined.

Lemma parse_once_trailing_marker_witness :
  parse_once store_y (str "costs 5" ++ [DOLLAR]) = Some (str "costs 5")
  /\ parse_once store_y (str "costs 5" ++ [BACKSLASH]) = Some (str "costs 5").
Proof.
  apply (parse_once_trailing_marker store_y (str "costs 5")). reflexivity.
Defined.

Lemma parse_once_never_copies_backslash_witness :
  ~ In BACKSLASH (str "$y") /\ ~ In NUL (str "$y").
Proof.
  destruct (parse_once_never_copies_backslash store_y (str "\$y") (str "$y"))
    as [H1 H2]; [reflexivity|].
  split; [apply H1 | apply H2]; repeat constructor; not_in_literal.
Defined.

Lemma parse_recursive_settles_witness :
  parse_recursive 3 store_y (str "$y") = Some (Nat.iter 1 (pass store_y) (str "$y"))
  /\ parse_once store_y (Nat.iter 1 (pass store_y) (str "$y"))
     = Some (Nat.iter 1 (pass store_y) (str "$y")).
Proof.
  apply (parse_recursive_settles 3 1 store_y (str "$y")).
  - reflexivity.
  - left. reflexivity.
  - apply Nat.leb_le. reflexivity.
  - reflexivity.
Defined.


Lemma trim_general_witness :
  exists w1 a w2,
    str "  ab  " = w1 ++ a ++ w2 /\ forallb is_ws w1 = true
    /\ forallb is_ws w2 = true /\ no_ws_ends a = true
    /\ trim (str "  ab  ") = Some (a ++ firstn (List.length w1) w2).
Proof.
  destruct (trim_general (str "  ab  ")) as [_ H]; [reflexivity|].
  apply H. reflexivity.
Defined.

Lemma trim_exact_iff_witness :
  trim (str " " ++ str "ab" ++ []) = Some (str "ab").
Proof.
  apply (trim_exact_iff (str " ") (str "ab") []); try reflexivity.
  right. reflexivity.
Defined.

Lemma trim_twice_witness :
  exists t, trim (str "  " ++ str "ab" ++ str "  ") = Some t
            /\ trim t = Some (str "ab").
Proof.
  apply (trim_twice (str "  ") (str "ab") (str "  ")); reflexivity.
Defined.

Lemma insert_cuts_at_first_equals_witness :
  exists k v,
    trim (str "url ") = Some k /\ trim (str " a=b") = Some v
    /\ insert (line_of (str "url ") (str " a=b")) (new_setting 3)
       = Some (if is_empty k then new_setting 3
               else with_map (new_setting 3) (map_set k v []))
    /\ (forallb is_ws (str "url ") = true ->
        insert (line_of (str "url ") (str " a=b")) (new_setting 3)
        = Some (new_setting 3)).
Proof.
  apply (insert_cuts_at_first_equals (str "url ") (str " a=b") (new_setting 3)).
  - not_in_literal.
  - reflexivity.
Defined.

Lemma insert_overwrites_witness :
  insert (line_of (str "b ") (str " 2"))
    {| recursion_level_ := 3; map_ := [(str "b", str "1")]; reserve_ := [] |}
  = insert (line_of (str "b ") (str " 2")) (new_setting 3).
Proof.
  apply (insert_overwrites (str "b ") (str " 1") (str " 2") (new_setting 3));
    try reflexivity.
  not_in_literal.
Defined.

Lemma insert_then_find_witness :
  map_find (str "a") (map_ store_ab) = Some (str "$b")
  /\ forall k', k' <> str "a" ->
       map_find k' (map_ store_ab) = map_find k' [(str "b", str "1")].
Proof.
  apply (insert_then_find (str "a ") (str " $b") (str "a") (str "$b")
           {| recursion_level_ := 3; map_ := [(str "b", str "1")];
              reserve_ := [] |} store_ab);
    try reflexivity; [not_in_literal | discriminate].
Defined.

Lemma insert_order_irrelevant_witness :
  inserts [line_of (str "b ") (str " 1"); line_of (str "a ") (str " $b")]
    (new_setting 3)
  = inserts [line_of (str "a ") (str " $b"); line_of (str "b ") (str " 1")]
      (new_setting 3).
Proof.
  apply (insert_order_irrelevant (str "b ") (str " 1") (str "a ") (str " $b")
           (str "b") (str "a") (new_setting 3));
    try reflexivity; try not_in_literal. discriminate.
Defined.

Lemma store_invariants_witness :
  map_ok (map_ store_ab) /\ keys_nonempty (map_ store_ab)
  /\ recursion_level_ store_ab = 3%nat.
Proof.
  apply (store_invariants (file_text [str "# sample"; str "b = 1"] []) 3
           [str "a = $b"]
           {| recursion_level_ := 3; map_ := [(str "b", str "1")];
              reserve_ := [] |} store_ab); reflexivity.
Defined.

Lemma load_line_skips_witness :
  load_line (str "   # a comment") (new_setting 3) = Some (new_setting 3).
Proof.
  destruct (load_line_skips (str "   # a comment") (new_setting 3))
    as [_ H]; [reflexivity|].
  apply (H (str "   ") (str " a comment")); reflexivity.
Defined.

Lemma read_from_file_lines_witness :
  read_from_file (Some (file_text [str "b = 1"] (str "a = 2")))
    (new_setting 3)
  = load_lines [str "b = 1"] (new_setting 3)
  /\ read_from_file (Some (file_text [str "b = 1"] (str "a = 2")))
       (new_setting 3)
     = read_from_file (Some (file_text [str "b = 1"] [])) (new_setting 3).
Proof.
  apply (read_from_file_lines [str "b = 1"] (str "a = 2") (new_setting 3)).
  - repeat constructor. not_in_literal.
  - not_in_literal.
Defined.

Lemma file_keys_clean_witness :
  keys_clean [(str "b", str "1 ")].
Proof.
  apply (file_keys_clean [str "  b  = 1  "] [] 3
           {| recursion_level_ := 3; map_ := [(str "b", str "1 ")];
              reserve_ := [] |}).
  - repeat constructor. not_in_literal.
  - not_in_literal.
  - reflexivity.
Defined.

Lemma getters_without_dollar_witness :
  get_cstr (str "b") None store_ab
  = Some (Some (c_str (str "1")), with_reserve store_ab (str "1")).
Proof.
  destruct (getters_without_dollar (fun _ : cstring => 0) (fun _ : cstring => 0)
              (fun _ : cstring => 0) (str "b") (str "1") store_ab) as [H _].
  - reflexivity.
  - reflexivity.
  - not_in_literal.
  - apply H.
Defined.

Lemma insert_then_get_cstr_witness :
  get_cstr (str "b") None
    {| recursion_level_ := 3; map_ := [(str "b", str "1")]; reserve_ := [] |}
  = Some (Some (c_str (str "1")),
          with_reserve
            {| recursion_level_ := 3; map_ := [(str "b", str "1")];
               reserve_ := [] |} (str "1")).
Proof.
  apply (insert_then_get_cstr (str "b ") (str " 1") (str "b") (str "1") None
           (new_setting 3));
    try reflexivity; try not_in_literal. discriminate.
Defined.

Lemma get_vector_appends_witness :
  exists added,
    [str "z"; str "el1"; str "el2"; str "el3"; str "el4"] = [str "z"] ++ added
    /\ Forall (fun e => e <> []) added.
Proof.
  destruct (get_vector_appends (str "vector") [str "z"]
              [str "z"; str "el1"; str "el2"; str "el3"; str "el4"] true
              store_vector
              (with_reserve store_vector (str "el1,el2 ,el3, el4")))
    as (_ & _ & _ & H); [reflexivity | exact H].
Defined.

Lemma get_vector_cuts_at_commas_witness :
  exists v,
    collect (segments (str "el1,el2 ,el3, el4") []) [] = Some v
    /\ get_vector (str "vector") [] store_vector
       = Some (true, v, with_reserve store_vector (str "el1,el2 ,el3, el4")).
Proof.
  apply (get_vector_cuts_at_commas (str "vector") (str "el1,el2 ,el3, el4")
           (str "el1,el2 ,el3, el4") [] store_vector); reflexivity.
Defined.

Lemma insert_without_equals_entry_witness :
  insert (str "  " ++ str "abc" ++ str " ") (new_setting 3)
  = Some (with_map (new_setting 3) [(str "abc ", str "abc ")])
  /\ insert ([] ++ str "abc" ++ str " ") (new_setting 3)
     = Some (with_map (new_setting 3) [(str "abc", str "abc")]).
Proof.
  assert (N1 : ~ In EQUALS (str "  " ++ str "abc" ++ str " "))
    by not_in_literal.
  assert (N2 : ~ In EQUALS ([] ++ str "abc" ++ str " ")) by not_in_literal.
  split.
  - destruct (insert_without_equals_entry (str "  ") (str "abc") (str " ")
                (new_setting 3) eq_refl eq_refl eq_refl N1 eq_refl)
      as (H & _ & _).
    exact H.
  - destruct (insert_without_equals_entry [] (str "abc") (str " ")
                (new_setting 3) eq_refl eq_refl eq_refl N2 eq_refl)
      as (_ & _ & H).
    apply H. left. reflexivity.
Defined.
